(** * ITensor: matrix product states and quantum numbers

    A shallow embedding of [itensor/qn.h] (quantum-number labels) and of the
    inline implementation part of the MPS class ([svdBond], the orthogonality
    cursors, [applyGate], [overlap], [sum]).

    Conventions of the embedding.
    - C++ [int] values (site positions, cursors, quantum numbers) are [Z];
      signed overflow has no defined behaviour in C++ and positions stay far
      from the limits of [int], so no wrap-around is modelled.
    - C++ [Real] ([double]) values are Rocq's binary64 floats.
    - A call of [Error(msg)] aborts the computation: outcome [Fatal msg].
    - [std::vector::at] outside the vector throws and [operator[]] outside
      the vector has no defined behaviour: both are outcome [OutOfRange].
    - The tensor library (contraction, [svd], [denmatDecomp], [norm], ...)
      and the option bag [Args] are external: the code is embedded over an
      interface [TensorLib] of total functions. *)

From Stdlib Require Import ZArith String Floats.PrimFloat.
From stdpp Require Import base option list.
From Equations Require Import Equations.
From Equations.Prop Require Import Logic.

Set Warnings "-inexact-float".
Local Open Scope string_scope.
Local Open Scope list_scope.
Local Open Scope Z_scope.

(** ** Outcomes of fallible code *)

Inductive outcome (T : Type) : Type :=
  | Ok (x : T)
  | Fatal (msg : string)
  | OutOfRange.
Arguments Ok {T} x.
Arguments Fatal {T} msg.
Arguments OutOfRange {T}.

#[global] Instance outcome_ret : MRet outcome := @Ok.
#[global] Instance outcome_bind : MBind outcome := fun A B f m =>
  match m with
  | Ok x => f x
  | Fatal msg => Fatal msg
  | OutOfRange => OutOfRange
  end.
#[global] Instance outcome_fmap : FMap outcome := fun A B f m =>
  match m with
  | Ok x => Ok (f x)
  | Fatal msg => Fatal msg
  | OutOfRange => OutOfRange
  end.

Definition Error {T : Type} (msg : string) : outcome T := Fatal msg.

Definition is_fatal {T : Type} (m : outcome T) : Prop :=
  exists msg, m = Fatal msg.

(** [v.at(i)] and [v[i]] on a [std::vector] held as a list, for an index of
    C++ type [int] or [size_t]. *)
Definition vec_at {T : Type} (v : list T) (i : Z) : outcome T :=
  if i <? 0 then OutOfRange
  else match v !! Z.to_nat i with
       | Some x => Ok x
       | None => OutOfRange
       end.

Definition vec_set {T : Type} (v : list T) (i : Z) (x : T) : outcome (list T) :=
  if (0 <=? i) && (i <? Z.of_nat (length v)) then Ok (<[Z.to_nat i := x]> v)
  else OutOfRange.

(** ** Quantum numbers ([itensor/qn.h]) *)

Module QNAlgebra.

(** [QNSize()] *)
Definition QNSize : Z := 4.

(** [struct QNVal]: a value and its [mod] field.
    [mod == 1]: Z addition; [mod > 1]: Z_M addition; [mod < 0]: the same,
    fermionic; [mod == 0]: inactive. *)
Record QNVal : Type := mkQNVal { val_ : Z; mod_ : Z }.

(** [QNVal()] *)
Definition QNVal_default : QNVal := mkQNVal 0 0.

(** [QNVal(qn_t v)] *)
Definition QNVal_of_int (v : Z) : QNVal := mkQNVal v 1.

(** Modelled from the spec: the symmetric-range representative of [v]
    modulo [m], in [-m/2, m/2). The reduction formula of [QNVal::set] is in
    qn.cc, which is not among the sources. *)
Definition canonical (m v : Z) : Z := (v + m / 2) mod m - m / 2.

(** Modelled from the spec: [QNVal::set] (declared in qn.h, defined in
    qn.cc). The stored value is the canonical representative for the
    sector's addition rule: the integer itself for [|mod| <= 1], the
    modular reduction for [|mod| > 1]. The [mod] field is left alone. *)
Definition set (v : Z) (q : QNVal) : QNVal :=
  let m := Z.abs (mod_ q) in
  if 1 <? m then mkQNVal (canonical m v) (mod_ q)
  else mkQNVal v (mod_ q).

(** [QNVal(qn_t v, qn_t m) : mod_(m) { set(v); }] *)
Definition QNVal_of_pair (v m : Z) : QNVal := set v (mkQNVal 0 m).

(** [QNVal(std::initializer_list<qn_t> qv)] *)
Definition QNVal_of_list (qv : list Z) : outcome QNVal :=
  match qv with
  | [v; m] => Ok (set v (mkQNVal 0 m))
  | _ => Error "initializer_list arg to QNVal must have two elements"
  end.

(** [class QN]: [std::array<QNVal,QNSize()> qn_], value-initialised. *)
Record QN : Type := mkQN { qn_0 : QNVal; qn_1 : QNVal; qn_2 : QNVal; qn_3 : QNVal }.

(** [QN::store()] *)
Definition store (q : QN) : list QNVal := [qn_0 q; qn_1 q; qn_2 q; qn_3 q].

(** [QN()] *)
Definition QN_default : QN :=
  mkQN QNVal_default QNVal_default QNVal_default QNVal_default.

(** [explicit QN(QNVal v0, QNVal v1 = QNVal{}, QNVal v2 = QNVal{},
    QNVal v3 = QNVal{})] *)
Definition QN_of_vals (v0 v1 v2 v3 : QNVal) : QN := mkQN v0 v1 v2 v3.

(** [explicit QN(std::initializer_list<qn_t> qv) { qn_[0] = qv; }] *)
Definition QN_of_list (qv : list Z) : outcome QN :=
  v0 ← QNVal_of_list qv;
  Ok (mkQN v0 QNVal_default QNVal_default QNVal_default).

(** [QN::operator bool] *)
Definition QN_bool (q : QN) : bool := negb (mod_ (qn_0 q) =? 0).

(** [QN::val0(n)], 0-indexed, checked as in a DEBUG build. *)
Definition val0 (q : QN) (n : Z) : outcome QNVal := vec_at (store q) n.

(** [QN::operator[](n)], 0-indexed *)
Definition QN_index (q : QN) (n : Z) : outcome Z := val_ <$> val0 q n.

(** [QN::operator()(n)], 1-indexed *)
Definition QN_call (q : QN) (n : Z) : outcome Z := QN_index q (n - 1).

(** [QN::mod(n)], 1-indexed: [qn_.at(n-1).mod()] *)
Definition QN_mod (q : QN) (n : Z) : outcome Z := mod_ <$> vec_at (store q) (n - 1).

(** [isFermionic(QNVal const&)] and [isActive(QNVal const&)] *)
Definition isFermionic (qv : QNVal) : bool := mod_ qv <? 0.
Definition isActive (qv : QNVal) : bool := negb (mod_ qv =? 0).

(** [isActive(QN const&, size_t n)] and [isFermionic(QN const&, size_t n)],
    1-indexed *)
Definition isActive_at (q : QN) (n : Z) : outcome bool := isActive <$> val0 q (n - 1).
Definition isFermionic_at (q : QN) (n : Z) : outcome bool :=
  (fun m => m <? 0) <$> QN_mod q n.

(** Modelled from the spec: [isFermionic(QN const&)] is declared in qn.h
    (returns true if any sector of the QN is fermionic) and defined in
    qn.cc. *)
Definition isFermionicQN (q : QN) : bool := existsb isFermionic (store q).

(** (-1)^v for an integer v of either sign. *)
Definition minus_one_pow (v : Z) : Z := if Z.even v then 1 else -1.

(** Modelled from the spec: [paritySign(QN const&)] is declared in qn.h and
    defined in qn.cc; it is the product over the fermionic sectors of
    (-1)^value. *)
Definition paritySign (q : QN) : Z :=
  foldr (fun qv p => if isFermionic qv then minus_one_pow (val_ qv) * p else p)
        1 (store q).

(** The contribution of one sector to [paritySign]. *)
Definition parity_factor (qv : QNVal) : Z :=
  if isFermionic qv then minus_one_pow (val_ qv) else 1.

(** Modelled from the spec: [operator+=(QNVal&, QNVal const&)] (qn.cc).
    Sectors add componentwise and the result is reduced to its canonical
    representative; mismatched [mod] fields are a fatal caller error. *)
Definition QNVal_add (qva qvb : QNVal) : outcome QNVal :=
  if mod_ qva =? mod_ qvb then Ok (set (val_ qva + val_ qvb) qva)
  else Error "MalformedQNError".

(** Modelled from the spec: [operator+=(QN&, QN const&)] (qn.cc),
    componentwise over the four sectors. *)
Definition QN_add_assign (qa qb : QN) : outcome QN :=
  v0 ← QNVal_add (qn_0 qa) (qn_0 qb);
  v1 ← QNVal_add (qn_1 qa) (qn_1 qb);
  v2 ← QNVal_add (qn_2 qa) (qn_2 qb);
  v3 ← QNVal_add (qn_3 qa) (qn_3 qb);
  Ok (mkQN v0 v1 v2 v3).

(** [QN operator+(QN qa, QN const& qb) { qa += qb; return qa; }] *)
Definition QN_plus (qa qb : QN) : outcome QN := QN_add_assign qa qb.

(** The convenience constructors. *)
Definition spin (Sz : Z) : outcome QN := QN_of_list [Sz; 1].
Definition boson (Nb : Z) : outcome QN := QN_of_list [Nb; 1].
Definition spinboson (Sz Nb : Z) : outcome QN :=
  v0 ← QNVal_of_list [Sz; 1];
  v1 ← QNVal_of_list [Nb; 1];
  Ok (QN_of_vals v0 v1 QNVal_default QNVal_default).
Definition fermion (Nf : Z) : outcome QN := QN_of_list [Nf; -1].
Definition fparity (Pf : Z) : outcome QN := QN_of_list [Pf; -2].
Definition electron (Sz Nf : Z) : outcome QN :=
  v0 ← QNVal_of_list [Sz; 1];
  v1 ← QNVal_of_list [Nf; -1];
  Ok (QN_of_vals v0 v1 QNVal_default QNVal_default).
Definition elparity (Sz Pf : Z) : outcome QN :=
  v0 ← QNVal_of_list [Sz; 1];
  v1 ← QNVal_of_list [Pf; -2];
  Ok (QN_of_vals v0 v1 QNVal_default QNVal_default).
Definition clock (n N : Z) : outcome QN := QN_of_list [n; N].

(** The [mod] fields of the four sectors. *)
Definition mods (q : QN) : list Z := mod_ <$> store q.

(** An electron-like label, spin 1 and one fermion: [QN({1,1},{1,-1})]. *)
Definition q_electron : QN :=
  mkQN (mkQNVal 1 1) (mkQNVal 1 (-1)) QNVal_default QNVal_default.

End QNAlgebra.

(** ** Matrix product states (the inline implementation file of the MPS class) *)

Module MPSImpl.

(** Modelled from the spec: [enum Direction] is declared in a header that
    is not among the sources; a sweep is leftward ([Fromleft]) or rightward
    ([Fromright]). *)
Inductive Direction : Type := Fromleft | Fromright.

Definition Direction_eqb (d1 d2 : Direction) : bool :=
  match d1, d2 with
  | Fromleft, Fromleft | Fromright, Fromright => true
  | _, _ => false
  end.

(** [Cplx] is [std::complex<Real>]. *)
Record Cplx : Type := mkCplx { real : float; imag : float }.

(** What the code prints. *)
Inductive Output : Type :=
  | Out_b_l_orth_lim (b l : Z)     (* "b=%d, l_orth_lim_=%d" *)
  | Out_b_r_orth_lim (b r : Z)     (* "b=%d, r_orth_lim_=%d" *)
  | Out_imag_warning (im : float). (* "Real overlap: WARNING, dropping non-zero imaginary part ..." *)

(** The external tensor library and option bag, as the code uses them. *)
Class TensorLib : Type := {
  ITensor : Type;
  Index : Type;
  IndexType : Type;
  Spectrum : Type;
  Args : Type;
  (** the template parameter of [svdBond] *)
  BigMatrixT : Type;
  Link : IndexType;
  (** [ITensor D;] *)
  ITensor_default : ITensor;
  (** [itensor::norm(T)] *)
  norm_T : ITensor -> float;
  (** [T *= x] for a Real [x] *)
  scale : ITensor -> float -> ITensor;
  (** [A * B] and [A *= B] *)
  contract : ITensor -> ITensor -> ITensor;
  noprime : ITensor -> ITensor;
  dag : ITensor -> ITensor;
  (** [prime(T,l)] for an index and [prime(T,Link)] for an index type *)
  prime_index : ITensor -> Index -> ITensor;
  prime_type : ITensor -> IndexType -> ITensor;
  commonIndex : ITensor -> ITensor -> IndexType -> Index;
  (** [if(l)] on an index *)
  Index_bool : Index -> bool;
  (** [T.cplx()] *)
  cplx : ITensor -> Cplx;
  (** [svd(AA,U,D,V,args)]: [U], [D], [V] are passed by reference, read
      and overwritten. *)
  svd : ITensor -> ITensor -> ITensor -> ITensor -> Args ->
        Spectrum * ITensor * ITensor * ITensor;
  (** [denmatDecomp(AA,A,B,dir,PH,args)]: [A], [B] are passed by
      reference. *)
  denmatDecomp : ITensor -> ITensor -> ITensor -> Direction -> BigMatrixT -> Args ->
                 Spectrum * ITensor * ITensor;
  getReal : Args -> string -> float -> float;
  getBool : Args -> string -> bool -> bool;
  MIN_CUT : float;
  (** the projector the four-argument [svdBond] hands on *)
  default_PH : BigMatrixT
}.

Section MPS.
Context `{TL : TensorLib}.

(** Modelled from the spec: the class declaration is in a header that is
    not among the sources. An MPS owns the sequence of its site tensors
    ([A_], mutated by index), its length [N_], the two orthogonality
    cursors, and the bond recorded by [setBond]. *)
Record MPS : Type := mkMPS {
  N_ : Z;
  A_ : list ITensor;
  l_orth_lim_ : Z;
  r_orth_lim_ : Z;
  atb_ : Z
}.

(** Modelled from the spec: the accessors [N()], [leftLim()], [rightLim()]
    and [A(i)] of the class header. *)
Definition N (psi : MPS) : Z := N_ psi.
Definition leftLim (psi : MPS) : Z := l_orth_lim_ psi.
Definition rightLim (psi : MPS) : Z := r_orth_lim_ psi.
Definition A (psi : MPS) (i : Z) : outcome ITensor := vec_at (A_ psi) i.

(** Member code runs on the object it mutates and on standard output. *)
Definition St (T : Type) : Type := MPS -> outcome T * MPS * list Output.

Definition st_ret {T : Type} (x : T) : St T := fun psi => (Ok x, psi, []).

Definition st_bind {T U : Type} (m : St T) (f : T -> St U) : St U := fun psi =>
  match m psi with
  | (Ok x, psi', out) => let '(r, psi'', out') := f x psi' in (r, psi'', out ++ out')
  | (Fatal msg, psi', out) => (Fatal msg, psi', out)
  | (OutOfRange, psi', out) => (OutOfRange, psi', out)
  end.

Definition st_lift {T : Type} (m : outcome T) : St T := fun psi => (m, psi, []).
Definition st_gets {T : Type} (f : MPS -> T) : St T := fun psi => (Ok (f psi), psi, []).
Definition st_modify (f : MPS -> MPS) : St unit := fun psi => (Ok tt, f psi, []).
Definition printfln (o : Output) : St unit := fun psi => (Ok tt, psi, [o]).
Definition st_Error {T : Type} (msg : string) : St T := st_lift (Error msg).

#[local] Instance St_ret : MRet St := @st_ret.
#[local] Instance St_bind : MBind St := fun T U f m => st_bind m f.

Definition set_l_orth_lim (l : Z) (psi : MPS) : MPS :=
  mkMPS (N_ psi) (A_ psi) l (r_orth_lim_ psi) (atb_ psi).
Definition set_r_orth_lim (r : Z) (psi : MPS) : MPS :=
  mkMPS (N_ psi) (A_ psi) (l_orth_lim_ psi) r (atb_ psi).
Definition set_A (a : list ITensor) (psi : MPS) : MPS :=
  mkMPS (N_ psi) a (l_orth_lim_ psi) (r_orth_lim_ psi) (atb_ psi).

(** [A_[i]] read and [A_[i] = t] on the object. *)
Definition read_A (i : Z) : St ITensor := fun psi => (vec_at (A_ psi) i, psi, []).
Definition write_A (i : Z) (t : ITensor) : St unit := fun psi =>
  match vec_set (A_ psi) i t with
  | Ok a => (Ok tt, set_A a psi, [])
  | Fatal msg => (Fatal msg, psi, [])
  | OutOfRange => (OutOfRange, psi, [])
  end.

(** Modelled from the spec: [setBond(b)] records which bond is about to be
    modified and has no other observable effect. *)
Definition setBond (b : Z) : St unit :=
  st_modify (fun psi => mkMPS (N_ psi) (A_ psi) (l_orth_lim_ psi) (r_orth_lim_ psi) b).

(** [MPS::svdBond(b,AA,dir,PH,args)] *)
Definition svdBond (b : Z) (AA : ITensor) (dir : Direction)
                   (PH : BigMatrixT) (args : Args) : St Spectrum :=
  setBond b ;;
  l ← st_gets leftLim;
  (if Direction_eqb dir Fromleft && (b - 1 >? l)
   then printfln (Out_b_l_orth_lim b l) ;; st_Error "b-1 > l_orth_lim_"
   else st_ret tt) ;;
  r ← st_gets rightLim;
  (if Direction_eqb dir Fromright && (b + 2 <? r)
   then printfln (Out_b_r_orth_lim b r) ;; st_Error "b+2 < r_orth_lim_"
   else st_ret tt) ;;
  let noise := getReal args "Noise" 0%float in
  let cutoff := getReal args "Cutoff" MIN_CUT in
  let usesvd := getBool args "UseSVD" false in
  res ← (if usesvd || (PrimFloat.eqb noise 0%float && PrimFloat.ltb cutoff 1e-12%float)
          then
            (* accurate SVD *)
            Ab ← read_A b;
            Ab1 ← read_A (b + 1);
            let '(res, U, D, V) := svd AA Ab ITensor_default Ab1 args in
            write_A b U ;;
            write_A (b + 1) V ;;
            let D := if getBool args "DoNormalize" false
                     then scale D (1 / norm_T D)%float else D in
            (if Direction_eqb dir Fromleft
             then t ← read_A (b + 1); write_A (b + 1) (contract t D)
             else t ← read_A b; write_A b (contract t D)) ;;
            st_ret res
          else
            (* density matrix approach *)
            Ab ← read_A b;
            Ab1 ← read_A (b + 1);
            let '(res, A', B') := denmatDecomp AA Ab Ab1 dir PH args in
            write_A b A' ;;
            write_A (b + 1) B' ;;
            (if getBool args "DoNormalize" false
             then
               let oc := if Direction_eqb dir Fromleft then b + 1 else b in
               t ← read_A oc;
               let nrm := norm_T t in
               if PrimFloat.ltb 1e-16%float nrm
               then write_A oc (scale t (1 / nrm)%float)
               else st_ret tt
             else st_ret tt) ;;
            st_ret res);
  (if Direction_eqb dir Fromleft
   then
     st_modify (set_l_orth_lim b) ;;
     r' ← st_gets r_orth_lim_;
     if r' <? b + 2 then st_modify (set_r_orth_lim (b + 2)) else st_ret tt
   else (* dir == Fromright *)
     l' ← st_gets l_orth_lim_;
     (if l' >? b - 1 then st_modify (set_l_orth_lim (b - 1)) else st_ret tt) ;;
     st_modify (set_r_orth_lim (b + 1))) ;;
  st_ret res.

(** Modelled from the spec: the four-argument [svdBond(b,AA,dir,args)] of
    the class header invokes the decomposition above on the same bond and
    direction. *)
Definition svdBond4 (b : Z) (AA : ITensor) (dir : Direction) (args : Args) : St Spectrum :=
  svdBond b AA dir default_PH args.

(** [isOrtho(MPS const&)] *)
Definition isOrtho (psi : MPS) : bool := leftLim psi + 1 =? rightLim psi - 1.

(** [orthoCenter(MPS const&)] *)
Definition orthoCenter (psi : MPS) : outcome Z :=
  (if negb (isOrtho psi) then Error "orthogonality center not well defined."
   else Ok tt) ;;
  Ok (leftLim psi + 1).

(** [norm(MPS const&)] *)
Definition norm (psi : MPS) : outcome float :=
  (if negb (isOrtho psi)
   then Error "MPS must have well-defined ortho center to compute norm; call .position(j) or .orthogonalize() to set ortho center"
   else Ok tt) ;;
  c ← orthoCenter psi;
  t ← A psi c;
  Ok (norm_T t).

(** [linkInd(MPS const&, int b)] *)
Definition linkInd (psi : MPS) (b : Z) : outcome Index :=
  Ab ← A psi b;
  Ab1 ← A psi (b + 1);
  Ok (commonIndex Ab Ab1 Link).

(** [applyGate(gate,psi,args)]; [psi.orthoCenter()] is the member twin of
    [orthoCenter(psi)]. *)
Definition applyGate (gate : ITensor) (args : Args) : St unit :=
  let fromleft := getBool args "Fromleft" true in
  c ← (fun psi => st_lift (orthoCenter psi) psi);
  Ac ← (fun psi => st_lift (A psi c) psi);
  Ac1 ← (fun psi => st_lift (A psi (c + 1)) psi);
  let AA := contract (contract Ac Ac1) gate in
  let AA := noprime AA in
  if fromleft then svdBond4 c AA Fromleft args ;; st_ret tt
  else svdBond4 c AA Fromright args ;; st_ret tt.

(** The loop [for(i = 2; i < N; ++i) L = L * phi.A(i) * dag(prime(psi.A(i),Link))]
    of [overlapC], entered at [i] with [count] positions left below [N]. *)
Fixpoint overlap_loop (psi phi : MPS) (count : nat) (i : Z) (L : ITensor) : outcome ITensor :=
  match count with
  | O => Ok L
  | S count' =>
      phiAi ← A phi i;
      psiAi ← A psi i;
      overlap_loop psi phi count' (i + 1)
        (contract (contract L phiAi) (dag (prime_type psiAi Link)))
  end.

(** [overlapC(psi,phi)] *)
Definition overlapC (psi phi : MPS) : outcome Cplx :=
  let n := N psi in
  (if negb (n =? N phi) then Error "overlap: mismatched N" else Ok tt) ;;
  l1 ← linkInd psi 1;
  L ← A phi 1;
  psiA1 ← A psi 1;
  let L := if Index_bool l1 then contract L (dag (prime_index psiA1 l1))
           else contract L (dag psiA1) in
  if n =? 1 then Ok (cplx L)
  else
    L ← overlap_loop psi phi (Z.to_nat (n - 2)) 2 L;
    phiAN ← A phi n;
    let L := contract L phiAN in
    lNm ← linkInd psi (n - 1);
    psiAN ← A psi n;
    if Index_bool lNm then Ok (cplx (contract (dag (prime_index psiAN lNm)) L))
    else Ok (cplx (contract (dag psiAN) L)).

(** [overlap(psi,phi,re,im)]: the two reference parameters are returned. *)
Definition overlap_re_im (psi phi : MPS) : outcome (float * float) :=
  z ← overlapC psi phi;
  Ok (real z, imag z).

(** [overlap(psi,phi)], Re[<psi|phi>], with what it prints. *)
Definition overlap (psi phi : MPS) : outcome float * list Output :=
  match overlap_re_im psi phi with
  | Ok (re, im) =>
      (Ok re,
       if PrimFloat.ltb (1e-12 * PrimFloat.abs re)%float (PrimFloat.abs im)
       then [Out_imag_warning im] else [])
  | Fatal msg => (Fatal msg, [])
  | OutOfRange => (OutOfRange, [])
  end.

End MPS.

(** [res.plusEq(R,args)], the pairwise add-and-compress primitive of the
    class, returning the updated [res]; and the default constructor
    [MPS()]. Both are declared in the class header. *)
Class MPSLib `{TL : TensorLib} : Type := {
  plusEq : MPS -> MPS -> Args -> MPS;
  MPS_default : MPS
}.

Section Sum.
Context `{ML : MPSLib}.

(** [sum(L,R,args)] *)
Definition sum2 (L R : MPS) (args : Args) : MPS :=
  let res := L in
  plusEq res R args.

(** The loop
    [for(n = 0, np = 0; n < Nt-1; n += 2, ++np)
       newterms.at(np) = sum(terms.at(n),terms.at(n+1),args);]
    of [sum], entered at [n], [np]. *)
Equations? pair_loop (terms : list MPS) (args : Args) (n np : Z)
                     (newterms : list MPS) : outcome (list MPS)
  by wf (Z.to_nat (Z.of_nat (length terms) - 1 - n)) lt :=
pair_loop terms args n np newterms with Z_lt_dec n (Z.of_nat (length terms) - 1) := {
  | left _ :=
      match (a ← vec_at terms n;
             b ← vec_at terms (n + 1);
             vec_set newterms np (sum2 a b args)) with
      | Ok newterms' => pair_loop terms args (n + 2) (np + 1) newterms'
      | Fatal msg => Fatal msg
      | OutOfRange => OutOfRange
      end
  | right _ := Ok newterms }.
Proof. lia. Qed.

(** The body of the [Nt > 2] case of [sum] up to the recursive call: the
    vector [newterms] handed to it. *)
Definition pair_terms (terms : list MPS) (args : Args) : outcome (list MPS) :=
  let Nt := Z.of_nat (length terms) in
  let nsize := if Nt mod 2 =? 0 then Nt / 2 else (Nt - 1) / 2 + 1 in
  let newterms := replicate (Z.to_nat nsize) MPS_default in
  newterms ← pair_loop terms args 0 0 newterms;
  if Nt mod 2 =? 1
  then back ← vec_at terms (Nt - 1); vec_set newterms (nsize - 1) back
  else Ok newterms.

Lemma vec_set_length {T : Type} (v v' : list T) (i : Z) (x : T) :
  vec_set v i x = Ok v' -> length v' = length v.
Proof.
  unfold vec_set. destruct (_ && _); [|discriminate].
  intros [= <-]. apply length_insert.
Qed.

Lemma pair_loop_length (terms : list MPS) (args : Args) (n np : Z)
      (newterms newterms' : list MPS) :
  pair_loop terms args n np newterms = Ok newterms' ->
  length newterms' = length newterms.
Proof.
  funelim (pair_loop terms args n np newterms); simp pair_loop in *;
    rewrite ?Heq in *; simpl in *.
  - destruct (vec_at terms n) as [a| |]; simpl in *; try discriminate.
    destruct (vec_at terms (n + 1)) as [b| |]; simpl in *; try discriminate.
    destruct (vec_set newterms np (sum2 a b args)) as [nt| |] eqn:E;
      simpl in *; try discriminate.
    intros Hrec. erewrite H by eauto. eapply vec_set_length; eauto.
  - intros [= <-]. reflexivity.
Qed.

Lemma pair_terms_length (terms : list MPS) (args : Args) (newterms : list MPS) :
  2 < Z.of_nat (length terms) ->
  pair_terms terms args = Ok newterms ->
  (length newterms < length terms)%nat.
Proof.
  unfold pair_terms. intros HNt.
  set (Nt := Z.of_nat (length terms)) in *.
  set (nsize := if Nt mod 2 =? 0 then Nt / 2 else (Nt - 1) / 2 + 1).
  assert (Hns : 0 <= nsize < Nt).
  { subst nsize. destruct (Nt mod 2 =? 0) eqn:E.
    - apply Z.eqb_eq in E. split; [apply Z.div_pos; lia|].
      apply Z.div_lt_upper_bound; lia.
    - split; [assert (0 <= (Nt - 1) / 2) by (apply Z.div_pos; lia); lia|].
      assert ((Nt - 1) / 2 < Nt - 1) by (apply Z.div_lt_upper_bound; lia). lia. }
  destruct (pair_loop terms args 0 0 _) as [nt| |] eqn:E; simpl; try discriminate.
  apply pair_loop_length in E. rewrite length_replicate in E.
  destruct (Nt mod 2 =? 1).
  - destruct (vec_at terms (Nt - 1)) as [back| |]; simpl; try discriminate.
    intros Hset. apply vec_set_length in Hset. lia.
  - intros [= <-]. lia.
Qed.

(** [sum(std::vector<MPS> const& terms, Args const& args)] *)
Equations? sum (terms : list MPS) (args : Args) : outcome MPS
  by wf (length terms) lt :=
sum terms args with Z.eq_dec (Z.of_nat (length terms)) 2 := {
  | left _ :=
      a ← vec_at terms 0;
      b ← vec_at terms 1;
      Ok (sum2 a b args)
  | right _ with Z.eq_dec (Z.of_nat (length terms)) 1 := {
    | left _ := vec_at terms 0
    | right _ with Z_gt_dec (Z.of_nat (length terms)) 2 := {
      | left _ with inspect (pair_terms terms args) := {
        | exist _ (Ok newterms) _ := sum newterms args
        | exist _ (Fatal msg) _ := Fatal msg
        | exist _ OutOfRange _ := OutOfRange }
      | right _ := Ok MPS_default } } }.
Proof. eapply pair_terms_length; eauto. lia. Qed.

End Sum.

End MPSImpl.

(** ** The remaining functions of the implementation file *)

Module MPSMore.
Import MPSImpl.

(** Further primitives of the tensor library, and the in-place division of
    the MPS class ([psi /= x], declared in the class header), as the
    remaining functions use them. *)
Class TensorLibMore `{TL : TensorLib} : Type := {
  (** [itensor::isComplex(T)] *)
  isComplexT : ITensor -> bool;
  (** [commonIndex(A,B)], of any index type *)
  commonIndex_any : ITensor -> ITensor -> Index;
  (** [l.m()] *)
  Index_m : Index -> Z;
  (** [prime(T,l,n)] and [prime(l,n)] *)
  prime_index_by : ITensor -> Index -> Z -> ITensor;
  prime_of_index : Index -> Z -> Index;
  (** [delta(l1,l2)] *)
  delta : Index -> Index -> ITensor;
  (** [A - B] *)
  sub : ITensor -> ITensor -> ITensor;
  (** [psi /= x] *)
  MPS_div : MPS -> float -> MPS
}.

(** What [checkOrtho] prints. *)
Inductive CheckOutput : Type :=
  | Chk_on_line (line : Z)            (* "checkOrtho: on line ",__LINE__," of mps.h," *)
  | Chk_failed (i : Z) (left : bool)  (* "checkOrtho: Tensor at position ",i," failed to be ",left?"left":"right"," ortho." *)
  | Chk_norm_Diff (x : float)         (* "checkOrtho: norm(Diff) = %E" *)
  | Chk_threshold (x : float)         (* "checkOrtho: Error threshold set to %E" *)
  | Chk_not_left (i : Z)              (* "checkOrtho: A_[i] not left orthogonal at site i=" *)
  | Chk_not_right (i : Z).            (* "checkOrtho: A_[i] not right orthogonal at site i=" *)

(** Code that only prints: an outcome and the lines printed. *)
Definition W (T : Type) : Type := outcome T * list CheckOutput.

Definition w_ret {T : Type} (x : T) : W T := (Ok x, []).

Definition w_bind {T U : Type} (m : W T) (f : T -> W U) : W U :=
  match m with
  | (Ok x, out) => let '(r, out') := f x in (r, out ++ out')
  | (Fatal msg, out) => (Fatal msg, out)
  | (OutOfRange, out) => (OutOfRange, out)
  end.

Definition w_lift {T : Type} (m : outcome T) : W T := (m, []).
Definition println (o : CheckOutput) : W unit := (Ok tt, [o]).

#[local] Instance W_ret : MRet W := @w_ret.
#[local] Instance W_bind : MBind W := fun T U f m => w_bind m f.

Section More.
Context `{TM : TensorLibMore}.

(** The loop of [isComplex], entered at [j] with [count] sites left. *)
Fixpoint isComplex_loop (psi : MPS) (count : nat) (j : Z) : outcome bool :=
  match count with
  | O => Ok false
  | S count' =>
      t ← A psi j;
      if isComplexT t then Ok true
      else isComplex_loop psi count' (j + 1)
  end.

(** [isComplex(MPS const&)]: [for(auto j : range1(psi.N()))] *)
Definition isComplex (psi : MPS) : outcome bool :=
  isComplex_loop psi (Z.to_nat (N psi)) 1.

(** [normalize(MPS &)] *)
Definition normalize : St float := fun psi =>
  st_bind (st_lift (norm psi)) (fun nrm =>
  st_bind (if PrimFloat.ltb (PrimFloat.abs nrm) 1e-20%float
           then st_Error "Zero norm" else st_ret tt) (fun _ =>
  st_bind (st_modify (fun psi => MPS_div psi nrm)) (fun _ =>
  st_ret nrm))) psi.

(** [rightLinkInd(MPS const&, int i)] and [leftLinkInd(MPS const&, int i)] *)
Definition rightLinkInd (psi : MPS) (i : Z) : outcome Index :=
  Ai ← A psi i;
  Ai1 ← A psi (i + 1);
  Ok (commonIndex Ai Ai1 Link).

Definition leftLinkInd (psi : MPS) (i : Z) : outcome Index :=
  Ai ← A psi i;
  Ai1 ← A psi (i - 1);
  Ok (commonIndex Ai Ai1 Link).

(** The loop of [maxM], entered at bond [b] with [count] bonds left. *)
Fixpoint maxM_loop (psi : MPS) (count : nat) (b : Z) (maxM_ : Z) : outcome Z :=
  match count with
  | O => Ok maxM_
  | S count' =>
      Ab ← A psi b;
      Ab1 ← A psi (b + 1);
      let mb := Index_m (commonIndex_any Ab Ab1) in
      maxM_loop psi count' (b + 1) (Z.max mb maxM_)
  end.

(** [maxM(MPS const&)]: [for(int b = 1; b < psi.N(); ++b)] *)
Definition maxM (psi : MPS) : outcome Z :=
  maxM_loop psi (Z.to_nat (N psi - 1)) 1 0.

(** [checkOrtho(MPS const& psi, int i, bool left)] *)
Definition checkOrtho_at (psi : MPS) (i : Z) (left : bool) : W bool :=
  link ← w_lift (if left then rightLinkInd psi i else leftLinkInd psi i);
  Ai ← w_lift (A psi i);
  let rho := contract Ai (dag (prime_index_by Ai link 4)) in
  let Delta := delta link (prime_of_index link 4) in
  let Diff := sub rho Delta in
  let threshold := 1e-13%float in
  if PrimFloat.ltb (norm_T Diff) threshold then w_ret true
  else
    println (Chk_on_line 202) ;;
    println (Chk_failed i left) ;;
    println (Chk_norm_Diff (norm_T Diff)) ;;
    println (Chk_threshold threshold) ;;
    w_ret false.

(** The first loop of [checkOrtho(MPS const&)],
    [for(int i = 1; i <= psi.leftLim(); ++i)], entered at [i]; [false] is
    the early [return false]. *)
Fixpoint checkOrtho_left (psi : MPS) (count : nat) (i : Z) : W bool :=
  match count with
  | O => w_ret true
  | S count' =>
      ok ← checkOrtho_at psi i true;
      if negb ok then println (Chk_not_left i) ;; w_ret false
      else checkOrtho_left psi count' (i + 1)
  end.

(** The second loop, [for(int i = psi.N(); i >= psi.rightLim(); --i)]. *)
Fixpoint checkOrtho_right (psi : MPS) (count : nat) (i : Z) : W bool :=
  match count with
  | O => w_ret true
  | S count' =>
      ok ← checkOrtho_at psi i false;
      if negb ok then println (Chk_not_right i) ;; w_ret false
      else checkOrtho_right psi count' (i - 1)
  end.

(** [checkOrtho(MPS const&)] *)
Definition checkOrtho (psi : MPS) : W bool :=
  ok ← checkOrtho_left psi (Z.to_nat (leftLim psi)) 1;
  if negb ok then w_ret false
  else checkOrtho_right psi (Z.to_nat (N psi - rightLim psi + 1)) (N psi).

(** [psiphiC(psi,phi)], [psiphi(psi,phi,re,im)] and [psiphi(psi,phi)] *)
Definition psiphiC (psi phi : MPS) : outcome Cplx := overlapC psi phi.
Definition psiphi_re_im (psi phi : MPS) : outcome (float * float) := overlap_re_im psi phi.
Definition psiphi (psi phi : MPS) : outcome float * list Output := overlap psi phi.

End More.

End MPSMore.

(** ** Bond decomposition over primitives that can fail

    The decomposition primitives are external; a failure of theirs (no
    convergence) is a fatal error that [svdBond], which catches nothing,
    hands on to its caller. Here [svd] and [denmatDecomp] return an outcome;
    the rest of the interface is as before. *)

Module MPSFallible.
Import MPSImpl.

(** Modelled from the spec: [svd] and [denmatDecomp] are defined outside
    these sources; by the specification of the bond decomposition, their
    convergence failures propagate as fatal errors. *)
Class DecompLib `{TL : TensorLib} : Type := {
  (** [svd(AA,U,D,V,args)] *)
  svd_f : ITensor -> ITensor -> ITensor -> ITensor -> Args ->
          outcome (Spectrum * ITensor * ITensor * ITensor);
  (** [denmatDecomp(AA,A,B,dir,PH,args)] *)
  denmatDecomp_f : ITensor -> ITensor -> ITensor -> Direction -> BigMatrixT -> Args ->
                   outcome (Spectrum * ITensor * ITensor)
}.

Section Fallible.
Context `{DL : DecompLib}.
#[local] Existing Instance St_ret.
#[local] Existing Instance St_bind.

(** [MPS::svdBond(b,AA,dir,PH,args)], line by line as [svdBond], with the
    two decomposition calls able to fail. *)
Definition svdBond_f (b : Z) (AA : ITensor) (dir : Direction)
                     (PH : BigMatrixT) (args : Args) : St Spectrum :=
  setBond b ;;
  l ← st_gets leftLim;
  (if Direction_eqb dir Fromleft && (b - 1 >? l)
   then printfln (Out_b_l_orth_lim b l) ;; st_Error "b-1 > l_orth_lim_"
   else st_ret tt) ;;
  r ← st_gets rightLim;
  (if Direction_eqb dir Fromright && (b + 2 <? r)
   then printfln (Out_b_r_orth_lim b r) ;; st_Error "b+2 < r_orth_lim_"
   else st_ret tt) ;;
  let noise := getReal args "Noise" 0%float in
  let cutoff := getReal args "Cutoff" MIN_CUT in
  let usesvd := getBool args "UseSVD" false in
  res ← (if usesvd || (PrimFloat.eqb noise 0%float && PrimFloat.ltb cutoff 1e-12%float)
          then
            (* accurate SVD *)
            Ab ← read_A b;
            Ab1 ← read_A (b + 1);
            '(res, U, D, V) ← st_lift (svd_f AA Ab ITensor_default Ab1 args);
            write_A b U ;;
            write_A (b + 1) V ;;
            let D := if getBool args "DoNormalize" false
                     then scale D (1 / norm_T D)%float else D in
            (if Direction_eqb dir Fromleft
             then t ← read_A (b + 1); write_A (b + 1) (contract t D)
             else t ← read_A b; write_A b (contract t D)) ;;
            st_ret res
          else
            (* density matrix approach *)
            Ab ← read_A b;
            Ab1 ← read_A (b + 1);
            '(res, A', B') ← st_lift (denmatDecomp_f AA Ab Ab1 dir PH args);
            write_A b A' ;;
            write_A (b + 1) B' ;;
            (if getBool args "DoNormalize" false
             then
               let oc := if Direction_eqb dir Fromleft then b + 1 else b in
               t ← read_A oc;
               let nrm := norm_T t in
               if PrimFloat.ltb 1e-16%float nrm
               then write_A oc (scale t (1 / nrm)%float)
               else st_ret tt
             else st_ret tt) ;;
            st_ret res);
  (if Direction_eqb dir Fromleft
   then
     st_modify (set_l_orth_lim b) ;;
     r' ← st_gets r_orth_lim_;
     if r' <? b + 2 then st_modify (set_r_orth_lim (b + 2)) else st_ret tt
   else (* dir == Fromright *)
     l' ← st_gets l_orth_lim_;
     (if l' >? b - 1 then st_modify (set_l_orth_lim (b - 1)) else st_ret tt) ;;
     st_modify (set_r_orth_lim (b + 1))) ;;
  st_ret res.


End Fallible.

(** Primitives that always return: the total ones of [TensorLib]. *)
Definition total_decomp `{TL : TensorLib} : DecompLib := {|
  svd_f := fun AA U D V args => Ok (svd AA U D V args);
  denmatDecomp_f := fun AA A' B' dir PH args => Ok (denmatDecomp AA A' B' dir PH args)
|}.

End MPSFallible.

(** ** Vocabulary of the specification *)

Module MPSSpec.
Import MPSImpl.

Section Decomposition.
Context `{TL : TensorLib}.

(** The gauge precondition of [svdBond]. *)
Definition gauge_ok (dir : Direction) (b : Z) (psi : MPS) : Prop :=
  match dir with
  | Fromleft => b - 1 <= leftLim psi
  | Fromright => b + 2 >= rightLim psi
  end.

(** The mode selection of [svdBond]. *)
Definition exact_mode (args : Args) : bool :=
  getBool args "UseSVD" false
  || (PrimFloat.eqb (getReal args "Noise" 0%float) 0%float
      && PrimFloat.ltb (getReal args "Cutoff" MIN_CUT) 1e-12%float).

(** The exact branch as the specification words it: factor [AA] with [svd],
    rescale the diagonal factor to unit norm when [DoNormalize] is set, and
    absorb it into [A[b+1]] for a leftward sweep, into [A[b]] for a
    rightward one. The result is the spectrum and the new [A[b]], [A[b+1]]. *)
Definition exact_split (AA Ab Ab1 : ITensor) (dir : Direction) (args : Args)
  : Spectrum * ITensor * ITensor :=
  let '(res, U, D, V) := svd AA Ab ITensor_default Ab1 args in
  let D' := if getBool args "DoNormalize" false
            then scale D (1 / norm_T D)%float else D in
  match dir with
  | Fromleft => (res, U, contract V D')
  | Fromright => (res, contract U D', V)
  end.

(** The density-matrix branch in the same terms: [denmatDecomp] splits [AA]
    directly, and under [DoNormalize] the tensor holding the weights is
    rescaled unless its norm is at most 1e-16. *)
Definition denmat_split (AA Ab Ab1 : ITensor) (dir : Direction)
                        (PH : BigMatrixT) (args : Args)
  : Spectrum * ITensor * ITensor :=
  let '(res, A', B') := denmatDecomp AA Ab Ab1 dir PH args in
  let rescale t :=
    if getBool args "DoNormalize" false && PrimFloat.ltb 1e-16%float (norm_T t)
    then scale t (1 / norm_T t)%float else t in
  match dir with
  | Fromleft => (res, A', rescale B')
  | Fromright => (res, rescale A', B')
  end.

(** The orthogonality window after a decomposition of bond [b]. *)
Definition window_after (dir : Direction) (b : Z) (psi : MPS) : Z * Z :=
  match dir with
  | Fromleft => (b, Z.max (rightLim psi) (b + 2))
  | Fromright => (Z.min (leftLim psi) (b - 1), b + 1)
  end.

End Decomposition.

Section Pairing.
Context `{ML : MPSLib}.

(** The pairing the specification describes: each adjacent pair is replaced
    by its pairwise sum, and a trailing unpaired term is carried over. *)
Fixpoint pairwise (terms : list MPS) (args : Args) : list MPS :=
  match terms with
  | a :: b :: rest => sum2 a b args :: pairwise rest args
  | _ => terms
  end.

(** The sums of the complete pairs alone. *)
Fixpoint full_pairs (terms : list MPS) (args : Args) : list MPS :=
  match terms with
  | a :: b :: rest => sum2 a b args :: full_pairs rest args
  | _ => []
  end.

End Pairing.

End MPSSpec.

(** ** A concrete tensor library: chains of scalars

    The smallest model of the interface: every tensor is a scalar (bond and
    site dimension one), so contraction is multiplication, the norm is the
    absolute value, and a two-site scalar splits into itself and 1. It gives
    the properties below concrete states to run on. *)

Module ScalarChain.
Import MPSImpl.

(** Named options. *)
Inductive ArgVal : Type := BoolVal (b : bool) | RealVal (x : float).

Fixpoint lookup_arg (name : string) (args : list (string * ArgVal)) : option ArgVal :=
  match args with
  | [] => None
  | (k, v) :: rest => if String.eqb k name then Some v else lookup_arg name rest
  end.

Definition getReal_list (args : list (string * ArgVal)) (name : string) (d : float) : float :=
  match lookup_arg name args with
  | Some (RealVal x) => x
  | _ => d
  end.

Definition getBool_list (args : list (string * ArgVal)) (name : string) (d : bool) : bool :=
  match lookup_arg name args with
  | Some (BoolVal b) => b
  | _ => d
  end.

#[local] Instance scalar_lib : TensorLib := {|
  ITensor := float;
  Index := bool;
  IndexType := unit;
  Spectrum := float;
  Args := list (string * ArgVal);
  BigMatrixT := unit;
  Link := tt;
  ITensor_default := 0%float;
  norm_T := PrimFloat.abs;
  scale := PrimFloat.mul;
  contract := PrimFloat.mul;
  noprime := fun t => t;
  dag := fun t => t;
  prime_index := fun t _ => t;
  prime_type := fun t _ => t;
  commonIndex := fun _ _ _ => false;
  Index_bool := fun l => l;
  cplx := fun t => mkCplx t 0%float;
  svd := fun AA _ _ _ _ => (PrimFloat.abs AA, 1%float, AA, 1%float);
  denmatDecomp := fun AA _ _ dir _ _ =>
    match dir with
    | Fromleft => (PrimFloat.abs AA, 1%float, AA)
    | Fromright => (PrimFloat.abs AA, AA, 1%float)
    end;
  getReal := getReal_list;
  getBool := getBool_list;
  MIN_CUT := 1e-15%float;
  default_PH := tt
|}.

#[local] Instance scalar_mps : MPSLib := {|
  plusEq := fun L R _ =>
    mkMPS (N_ L) (zip_with PrimFloat.add (A_ L) (A_ R))
          (l_orth_lim_ L) (r_orth_lim_ L) (atb_ L);
  MPS_default := mkMPS 0 [] 0 0 1
|}.

(** A product state of length 4 with its center at site 2, stored with the
    two boundary slots 0 and 5. *)
Definition psi4 : MPS :=
  mkMPS 4 [0; 1; 1; 1; 1; 0]%float 1 3 1.

(** The same chain with a window that has no single center. *)
Definition psi4_wide : MPS :=
  mkMPS 4 [0; 1; 1; 1; 1; 0]%float 0 3 1.

(** [psi4] after a leftward, and after a rightward, update of bond 2 that
    leaves the tensors as they are. *)
Definition psi4_left : MPS :=
  mkMPS 4 [0; 1; 1; 1; 1; 0]%float 2 4 2.

Definition psi4_right : MPS :=
  mkMPS 4 [0; 1; 1; 1; 1; 0]%float 1 3 2.

End ScalarChain.

(** The further primitives on chains of scalars: every tensor is real, every
    bond has dimension one, and [psi /= x] divides the center tensor. An
    addition of states that is associative: the direct sum of the tensor
    lists. *)

Module ScalarMore.
Import MPSImpl MPSMore ScalarChain.
#[local] Existing Instance scalar_lib.

#[local] Instance scalar_more : TensorLibMore := {|
  isComplexT := fun _ => false;
  commonIndex_any := fun _ _ => false;
  Index_m := fun _ => 1;
  prime_index_by := fun t _ _ => t;
  prime_of_index := fun l _ => l;
  delta := fun _ _ => 1%float;
  sub := PrimFloat.sub;
  MPS_div := fun psi x =>
    mkMPS (N_ psi)
          (alter (fun t => (t / x)%float) (Z.to_nat (l_orth_lim_ psi + 1)) (A_ psi))
          (l_orth_lim_ psi) (r_orth_lim_ psi) (atb_ psi)
|}.

#[local] Instance direct_sum_mps : MPSLib := {|
  plusEq := fun L R _ =>
    mkMPS (N_ L) (A_ L ++ A_ R) (l_orth_lim_ L) (r_orth_lim_ L) (atb_ L);
  MPS_default := mkMPS 0 [] 0 0 1
|}.

(** The sites of [psi4] with other boundary slots and other cursors. *)
Definition psi4_regauged : MPS :=
  mkMPS 4 [5; 1; 1; 1; 1; 7]%float 0 5 3.

(** Chains of scalars whose density-matrix decomposition is biased by a
    projector, here a weight on the reported spectrum. *)
Definition scalar_lib_weighted : TensorLib := {|
  ITensor := float;
  Index := bool;
  IndexType := unit;
  Spectrum := float;
  Args := list (string * ArgVal);
  BigMatrixT := float;
  Link := tt;
  ITensor_default := 0%float;
  norm_T := PrimFloat.abs;
  scale := PrimFloat.mul;
  contract := PrimFloat.mul;
  noprime := fun t => t;
  dag := fun t => t;
  prime_index := fun t _ => t;
  prime_type := fun t _ => t;
  commonIndex := fun _ _ _ => false;
  Index_bool := fun l => l;
  cplx := fun t => mkCplx t 0%float;
  svd := fun AA _ _ _ _ => (PrimFloat.abs AA, 1%float, AA, 1%float);
  denmatDecomp := fun AA _ _ dir PH _ =>
    match dir with
    | Fromleft => (PrimFloat.abs AA * PH, 1, AA)%float
    | Fromright => (PrimFloat.abs AA * PH, AA, 1)%float
    end;
  getReal := getReal_list;
  getBool := getBool_list;
  MIN_CUT := 1e-15%float;
  default_PH := 1%float
|}.

Definition psi4_weighted : MPS (TL := scalar_lib_weighted) :=
  mkMPS (TL := scalar_lib_weighted) 4 [0; 1; 1; 1; 1; 0]%float 1 3 1.

(** A state of length 0 that stores no tensor. *)
Definition psi_empty : MPS := mkMPS 0 [] 0 0 1.


End ScalarMore.

(** * Properties *)

(** ** Quantum numbers *)

Section QNFacts.
Import QNAlgebra.

Lemma set_mod (v : Z) (qv : QNVal) : mod_ (set v qv) = mod_ qv.
Proof. unfold set. destruct (1 <? Z.abs (mod_ qv)); reflexivity. Qed.

Lemma set_val_integer (v : Z) (qv : QNVal) :
  Z.abs (mod_ qv) <= 1 -> val_ (set v qv) = v.
Proof.
  intros Hm. unfold set.
  destruct (1 <? Z.abs (mod_ qv)) eqn:E; [apply Z.ltb_lt in E; lia | reflexivity].
Qed.

Lemma QN_of_list_mods (v m : Z) : mods <$> QN_of_list [v; m] = Ok [m; 0; 0; 0].
Proof.
  unfold QN_of_list, mods; cbn. now rewrite set_mod.
Qed.

Lemma electron_mods (Sz Nf : Z) : mods <$> electron Sz Nf = Ok [1; -1; 0; 0].
Proof.
  unfold electron, QN_of_vals, mods; cbn. now rewrite !set_mod.
Qed.

(** The modelled reduction picks the representative of the class of [v]
    modulo [m] that lies in [-m/2, m/2). *)
Lemma canonical_range (m v : Z) :
  0 < m -> - m <= 2 * canonical m v < m /\ (canonical m v - v) mod m = 0.
Proof.
  intros Hm. unfold canonical.
  pose proof (Z.mod_pos_bound (v + m / 2) m Hm) as Hb.
  pose proof (Z.div_mod m 2 ltac:(lia)) as Hd.
  pose proof (Z.mod_pos_bound m 2 ltac:(lia)) as Hd2.
  split; [lia|].
  rewrite (Z.mod_eq (v + m / 2) m) by lia.
  replace (v + m / 2 - m * ((v + m / 2) / m) - m / 2 - v)
    with (- ((v + m / 2) / m) * m) by lia.
  apply Z.mod_mul. lia.
Qed.

Lemma even_abs (v : Z) : Z.even (Z.abs v) = Z.even v.
Proof.
  destruct (Z.abs_eq_or_opp v) as [-> | ->]; [reflexivity | apply Z.even_opp].
Qed.

Lemma minus_one_pow_abs (v : Z) : minus_one_pow v = (-1) ^ Z.abs v.
Proof.
  unfold minus_one_pow. rewrite <- (even_abs v).
  assert (Hnn : 0 <= Z.abs v) by lia.
  destruct (Z.even (Z.abs v)) eqn:E.
  - apply Z.even_spec in E. destruct E as [k Hk]. rewrite Hk.
    rewrite Z.pow_mul_r by lia.
    change ((-1) ^ 2) with 1. rewrite Z.pow_1_l by lia. reflexivity.
  - assert (Ho : Z.odd (Z.abs v) = true) by (rewrite <- Z.negb_even, E; reflexivity).
    apply Z.odd_spec in Ho. destruct Ho as [k Hk]. rewrite Hk.
    rewrite Z.pow_add_r, Z.pow_mul_r by lia.
    change ((-1) ^ 2) with 1. rewrite Z.pow_1_l by lia. reflexivity.
Qed.

Lemma minus_one_pow_add (a b : Z) :
  minus_one_pow (a + b) = minus_one_pow a * minus_one_pow b.
Proof.
  unfold minus_one_pow. rewrite Z.even_add.
  destruct (Z.even a), (Z.even b); reflexivity.
Qed.

Lemma minus_one_pow_cases (v : Z) : minus_one_pow v = 1 \/ minus_one_pow v = -1.
Proof. unfold minus_one_pow. destruct (Z.even v); auto. Qed.

Lemma paritySign_factors (q : QN) :
  paritySign q =
  parity_factor (qn_0 q) * (parity_factor (qn_1 q) *
  (parity_factor (qn_2 q) * parity_factor (qn_3 q))).
Proof.
  unfold paritySign, parity_factor; cbn.
  destruct (isFermionic (qn_0 q)), (isFermionic (qn_1 q)),
           (isFermionic (qn_2 q)), (isFermionic (qn_3 q)); lia.
Qed.

Lemma parity_factor_cases (qv : QNVal) : parity_factor qv = 1 \/ parity_factor qv = -1.
Proof.
  unfold parity_factor. destruct (isFermionic qv); auto using minus_one_pow_cases.
Qed.

Lemma canonical_even_modulus (m v : Z) :
  Z.even m = true -> Z.even (canonical m v) = Z.even v.
Proof.
  intros Hm. unfold canonical.
  destruct (Z.eq_dec m 0) as [-> | Hne].
  - rewrite Z.mod_0_r. cbn. f_equal; lia.
  - rewrite (Z.mod_eq (v + m / 2) m) by assumption.
    replace (v + m / 2 - m * ((v + m / 2) / m) - m / 2)
      with (v - m * ((v + m / 2) / m)) by lia.
    rewrite Z.even_sub, Z.even_mul, Hm. cbn. now destruct (Z.even v).
Qed.

(** A sector whose modulus is -1 or even keeps the parity of a sum. *)
Lemma QNVal_add_parity (a b : QNVal) :
  mod_ a = mod_ b ->
  (isFermionic a = true -> mod_ a = -1 \/ Z.even (mod_ a) = true) ->
  exists c, QNVal_add a b = Ok c /\ parity_factor c = parity_factor a * parity_factor b.
Proof.
  intros Hm Hf. unfold QNVal_add. rewrite <- Hm, Z.eqb_refl.
  eexists; split; [reflexivity|].
  unfold parity_factor, isFermionic in *. rewrite set_mod, <- Hm.
  destruct (mod_ a <? 0) eqn:E; [|reflexivity].
  rewrite <- minus_one_pow_add.
  destruct (Hf eq_refl) as [H1 | He].
  - rewrite set_val_integer by (rewrite H1; cbn; lia). reflexivity.
  - unfold set. destruct (1 <? Z.abs (mod_ a)); [|reflexivity]. cbn.
    unfold minus_one_pow. rewrite canonical_even_modulus; [reflexivity|].
    now rewrite even_abs.
Qed.

Lemma QN_plus_parity (q1 q2 : QN) :
  mods q1 = mods q2 ->
  Forall (fun s => isFermionic s = true -> mod_ s = -1 \/ Z.even (mod_ s) = true)
         (store q1) ->
  exists q12, QN_plus q1 q2 = Ok q12 /\ paritySign q12 = paritySign q1 * paritySign q2.
Proof.
  intros Hm Hf. unfold mods, store in Hm, Hf. cbn in Hm.
  injection Hm as H0 H1 H2 H3.
  apply Forall_cons in Hf as [F0 Hf]. apply Forall_cons in Hf as [F1 Hf].
  apply Forall_cons in Hf as [F2 Hf]. apply Forall_cons in Hf as [F3 _].
  destruct (QNVal_add_parity _ _ H0 F0) as (c0 & E0 & P0).
  destruct (QNVal_add_parity _ _ H1 F1) as (c1 & E1 & P1).
  destruct (QNVal_add_parity _ _ H2 F2) as (c2 & E2 & P2).
  destruct (QNVal_add_parity _ _ H3 F3) as (c3 & E3 & P3).
  exists (mkQN c0 c1 c2 c3). split.
  - unfold QN_plus, QN_add_assign. rewrite E0, E1, E2, E3. reflexivity.
  - rewrite !paritySign_factors. cbn. rewrite P0, P1, P2, P3. ring.
Qed.

Lemma parity_product_filter (l : list QNVal) :
  foldr (fun qv p => if isFermionic qv then minus_one_pow (val_ qv) * p else p) 1 l
  = fold_right Z.mul 1
      (List.map (fun s => (-1) ^ Z.abs (val_ s)) (List.filter isFermionic l)).
Proof.
  induction l as [|s l IH]; [reflexivity|].
  cbn. destruct (isFermionic s); cbn; rewrite IH; [|reflexivity].
  now rewrite minus_one_pow_abs.
Qed.

(** C7 (amended). For every QN value [q], [paritySign q] is the product over
    the fermionic sectors of [q] of (-1) raised to the sector's stored value
    (its absolute value, for a negative one), hence +1 or -1;
    [paritySign (fermion n)] is (-1)^n for every integer [n]; and
    [paritySign (q1 + q2) = paritySign q1 * paritySign q2] whenever the
    sectors of the operands have matching addition rules and every fermionic
    sector has [mod] -1 or an even [mod]. *)
Theorem paritySign_product (q : QN) (n : Z) (q1 q2 : QN) :
  paritySign q
    = fold_right Z.mul 1
        (List.map (fun s => (-1) ^ Z.abs (val_ s)) (List.filter isFermionic (store q)))
  /\ (paritySign q = 1 \/ paritySign q = -1)
  /\ paritySign <$> fermion n = Ok ((-1) ^ Z.abs n)
  /\ (mods q1 = mods q2 ->
      Forall (fun s => isFermionic s = true -> mod_ s = -1 \/ Z.even (mod_ s) = true)
             (store q1) ->
      exists q12, QN_plus q1 q2 = Ok q12 /\
                  paritySign q12 = paritySign q1 * paritySign q2).
Proof.
  split; [apply parity_product_filter|].
  split.
  { rewrite paritySign_factors.
    destruct (parity_factor_cases (qn_0 q)) as [-> | ->],
             (parity_factor_cases (qn_1 q)) as [-> | ->],
             (parity_factor_cases (qn_2 q)) as [-> | ->],
             (parity_factor_cases (qn_3 q)) as [-> | ->]; cbn; auto. }
  split; [|apply QN_plus_parity].
  rewrite <- minus_one_pow_abs.
  change (fermion n)
    with (Ok (mkQN (mkQNVal n (-1)) QNVal_default QNVal_default QNVal_default)).
  cbn. unfold minus_one_pow. destruct (Z.even n); reflexivity.
Qed.

(** A fermionic sector modulo 3 holding the class of 2 (stored as -1), added
    to itself: the sum is stored as 1, so its parity sign is -1, while the
    product of the operands' parity signs is +1. *)
Lemma paritySign_sum_odd_modulus :
  exists q q12,
    QN_of_list [2; -3] = Ok q /\ mods q = mods q /\
    QN_plus q q = Ok q12 /\
    paritySign q12 <> paritySign q * paritySign q.
Proof.
  eexists _, _. split; [reflexivity|]. split; [reflexivity|].
  split; [reflexivity|]. vm_compute. discriminate.
Qed.

(** C8. The convenience constructors fix the [mod] of each sector: [spin]
    and [boson] give one sector with mod 1, [fermion] one with mod -1,
    [fparity] one with mod -2, [clock n N] one with mod [N], [electron] two
    sectors with mods 1 and -1 (the other sectors stay inactive, mod 0);
    hence [fermion n] is fermionic for every [n], in its first sector and as
    a whole, and [fermion 3] is fermionic with parity sign -1. *)
Theorem constructors_mods (Sz Nb Nf Pf n N' : Z) :
  mods <$> spin Sz = Ok [1; 0; 0; 0]
  /\ mods <$> boson Nb = Ok [1; 0; 0; 0]
  /\ mods <$> fermion Nf = Ok [-1; 0; 0; 0]
  /\ mods <$> fparity Pf = Ok [-2; 0; 0; 0]
  /\ mods <$> clock n N' = Ok [N'; 0; 0; 0]
  /\ mods <$> electron Sz Nf = Ok [1; -1; 0; 0]
  /\ (fermion n ≫= fun q => isFermionic_at q 1) = Ok true
  /\ isFermionicQN <$> fermion n = Ok true
  /\ (fun q => (isFermionicQN q, paritySign q)) <$> fermion 3 = Ok (true, -1).
Proof.
  rewrite electron_mods.
  unfold spin, boson, fermion, fparity, clock.
  rewrite !QN_of_list_mods.
  repeat split; reflexivity.
Qed.

End QNFacts.

(** ** Vectors addressed by position *)

Section VecFacts.
Context {T : Type}.
Implicit Types (v : list T) (i j : Z) (x : T).

Lemma vec_at_Ok_range v i x :
  vec_at v i = Ok x -> 0 <= i < Z.of_nat (length v).
Proof.
  unfold vec_at. destruct (i <? 0) eqn:E; [discriminate|].
  apply Z.ltb_ge in E.
  destruct (v !! Z.to_nat i) eqn:L; [|discriminate].
  intros _. apply lookup_lt_Some in L. lia.
Qed.

Lemma vec_at_in_range v i :
  0 <= i < Z.of_nat (length v) -> exists x, vec_at v i = Ok x.
Proof.
  intros Hr. unfold vec_at.
  destruct (i <? 0) eqn:E; [apply Z.ltb_lt in E; lia|].
  destruct (lookup_lt_is_Some_2 v (Z.to_nat i)) as [x ->]; [lia|].
  eauto.
Qed.

Lemma vec_set_in_range v i x :
  0 <= i < Z.of_nat (length v) -> vec_set v i x = Ok (<[Z.to_nat i := x]> v).
Proof.
  intros [H0 H1]. unfold vec_set.
  apply Z.leb_le in H0. apply Z.ltb_lt in H1. now rewrite H0, H1.
Qed.

Lemma vec_at_insert_eq v i x :
  0 <= i < Z.of_nat (length v) -> vec_at (<[Z.to_nat i := x]> v) i = Ok x.
Proof.
  intros Hr. unfold vec_at.
  destruct (i <? 0) eqn:E; [apply Z.ltb_lt in E; lia|].
  rewrite list_lookup_insert_eq by lia. reflexivity.
Qed.

Lemma vec_at_insert_ne v i j x :
  0 <= i -> i <> j -> vec_at (<[Z.to_nat i := x]> v) j = vec_at v j.
Proof.
  intros Hi Hne. unfold vec_at.
  destruct (j <? 0) eqn:E; [reflexivity|]. apply Z.ltb_ge in E.
  rewrite list_lookup_insert_ne by lia. reflexivity.
Qed.

End VecFacts.

(** ** Matrix product states *)

Section MPSFacts.
Import MPSImpl MPSSpec.
Context `{TL : TensorLib}.

Ltac st_unfold :=
  unfold svdBond, mbind, St_bind, st_bind, setBond, st_modify, st_gets,
    printfln, st_Error, st_lift, st_ret, read_A, write_A, Error,
    leftLim, rightLim, set_l_orth_lim, set_r_orth_lim, set_A.

Ltac vec_step :=
  first
    [ rewrite vec_set_in_range by (rewrite ?length_insert; lia)
    | rewrite vec_at_insert_eq by (rewrite ?length_insert; lia)
    | rewrite vec_at_insert_ne by lia ].

Lemma svdBond_run b AA dir PH args psi Ab Ab1 :
  gauge_ok dir b psi ->
  vec_at (A_ psi) b = Ok Ab -> vec_at (A_ psi) (b + 1) = Ok Ab1 ->
  svdBond b AA dir PH args psi =
    let '(res, Tb, Tb1) :=
      if exact_mode args then exact_split AA Ab Ab1 dir args
      else denmat_split AA Ab Ab1 dir PH args in
    (Ok res,
     mkMPS (N_ psi)
           (<[Z.to_nat (b + 1) := Tb1]> (<[Z.to_nat b := Tb]> (A_ psi)))
           (fst (window_after dir b psi)) (snd (window_after dir b psi)) b,
     []).
Proof.
  intros Hg Hb Hb1.
  pose proof (vec_at_Ok_range _ _ _ Hb) as Rb.
  pose proof (vec_at_Ok_range _ _ _ Hb1) as Rb1.
  unfold exact_mode, exact_split, denmat_split, window_after, gauge_ok in *.
  st_unfold.
  destruct dir; cbn.
  - unfold leftLim in Hg.
    replace (b - 1 >? l_orth_lim_ psi) with false
      by (symmetry; rewrite Z.gtb_ltb; apply Z.ltb_ge; lia).
    destruct (getBool args "UseSVD" false
              || (getReal args "Noise" 0 =? 0)%float
                 && (getReal args "Cutoff" MIN_CUT <? 1e-12)%float).
    + cbn. rewrite Hb, Hb1.
      destruct (svd AA Ab ITensor_default Ab1 args) as [[[res U] D] V].
      cbn. repeat (vec_step; cbn).
      rewrite list_insert_insert_eq.
      destruct (Z.ltb_spec (r_orth_lim_ psi) (b + 2)); cbn;
        do 2 f_equal; f_equal; unfold rightLim; lia.
    + cbn. rewrite Hb, Hb1.
      destruct (denmatDecomp AA Ab Ab1 Fromleft PH args) as [[res A'] B'].
      cbn. repeat (vec_step; cbn).
      destruct (getBool args "DoNormalize" false); cbn;
        repeat (vec_step; cbn).
      * destruct (1e-16 <? norm_T B')%float; cbn; repeat (vec_step; cbn);
          rewrite ?list_insert_insert_eq;
          destruct (Z.ltb_spec (r_orth_lim_ psi) (b + 2)); cbn;
          do 2 f_equal; f_equal; unfold rightLim; lia.
      * destruct (Z.ltb_spec (r_orth_lim_ psi) (b + 2)); cbn;
          do 2 f_equal; f_equal; unfold rightLim; lia.
  - unfold rightLim in Hg.
    replace (b + 2 <? r_orth_lim_ psi) with false
      by (symmetry; apply Z.ltb_ge; lia).
    destruct (getBool args "UseSVD" false
              || (getReal args "Noise" 0 =? 0)%float
                 && (getReal args "Cutoff" MIN_CUT <? 1e-12)%float).
    + cbn. rewrite Hb, Hb1.
      destruct (svd AA Ab ITensor_default Ab1 args) as [[[res U] D] V].
      cbn. repeat (vec_step; cbn).
      rewrite (list_insert_insert_ne _ (Z.to_nat b) (Z.to_nat (b + 1))) by lia.
      rewrite list_insert_insert_eq, Z.gtb_ltb.
      destruct (Z.ltb_spec (b - 1) (l_orth_lim_ psi)); cbn;
        do 2 f_equal; f_equal; unfold leftLim; lia.
    + cbn. rewrite Hb, Hb1.
      destruct (denmatDecomp AA Ab Ab1 Fromright PH args) as [[res A'] B'].
      cbn. repeat (vec_step; cbn).
      destruct (getBool args "DoNormalize" false); cbn;
        repeat (vec_step; cbn).
      * destruct (1e-16 <? norm_T A')%float; cbn; repeat (vec_step; cbn);
          try rewrite (list_insert_insert_ne _ (Z.to_nat b) (Z.to_nat (b + 1))) by lia;
          rewrite ?list_insert_insert_eq, Z.gtb_ltb;
          destruct (Z.ltb_spec (b - 1) (l_orth_lim_ psi)); cbn;
          do 2 f_equal; f_equal; unfold leftLim; lia.
      * rewrite Z.gtb_ltb.
        destruct (Z.ltb_spec (b - 1) (l_orth_lim_ psi)); cbn;
          do 2 f_equal; f_equal; unfold leftLim; lia.
Qed.

Lemma vec_at_cases {T : Type} (v : list T) (i : Z) :
  (exists x, vec_at v i = Ok x) \/ vec_at v i = OutOfRange.
Proof.
  unfold vec_at. destruct (i <? 0); [auto|].
  destruct (v !! Z.to_nat i); eauto.
Qed.

Lemma gauge_ok_dec (dir : Direction) (b : Z) (psi : MPS) :
  {gauge_ok dir b psi} + {~ gauge_ok dir b psi}.
Proof.
  destruct dir; cbn; [apply Z_le_dec | apply Z_ge_dec].
Qed.

(** A violated gauge precondition: the diagnostic line is printed and the
    call aborts, after [setBond] and before any tensor is read. *)
Lemma svdBond_gauge_fail b AA dir PH args psi :
  ~ gauge_ok dir b psi ->
  svdBond b AA dir PH args psi =
    (Fatal (match dir with
            | Fromleft => "b-1 > l_orth_lim_"
            | Fromright => "b+2 < r_orth_lim_"
            end),
     mkMPS (N_ psi) (A_ psi) (l_orth_lim_ psi) (r_orth_lim_ psi) b,
     [match dir with
      | Fromleft => Out_b_l_orth_lim b (leftLim psi)
      | Fromright => Out_b_r_orth_lim b (rightLim psi)
      end]).
Proof.
  intros Hg. unfold gauge_ok in Hg. st_unfold.
  destruct dir; cbn; unfold leftLim, rightLim in *.
  - replace (b - 1 >? l_orth_lim_ psi) with true
      by (symmetry; rewrite Z.gtb_ltb; apply Z.ltb_lt; lia).
    reflexivity.
  - replace (b + 2 <? r_orth_lim_ psi) with true
      by (symmetry; apply Z.ltb_lt; lia).
    reflexivity.
Qed.

(** With the gauge precondition met, a bond outside the stored tensors is
    the only other way not to return. *)
Lemma svdBond_out_of_range b AA dir PH args psi :
  gauge_ok dir b psi ->
  vec_at (A_ psi) b = OutOfRange \/ vec_at (A_ psi) (b + 1) = OutOfRange ->
  fst (fst (svdBond b AA dir PH args psi)) = OutOfRange.
Proof.
  intros Hg Hr. unfold gauge_ok in Hg. st_unfold.
  destruct dir; cbn; unfold leftLim, rightLim in *.
  - replace (b - 1 >? l_orth_lim_ psi) with false
      by (symmetry; rewrite Z.gtb_ltb; apply Z.ltb_ge; lia).
    destruct (getBool args "UseSVD" false
              || (getReal args "Noise" 0 =? 0)%float
                 && (getReal args "Cutoff" MIN_CUT <? 1e-12)%float); cbn;
      (destruct Hr as [Hr | Hr];
       [ rewrite Hr; reflexivity
       | destruct (vec_at_cases (A_ psi) b) as [[x Hx] | Hx]; rewrite Hx; cbn;
         [ rewrite Hr; reflexivity | reflexivity ] ]).
  - replace (b + 2 <? r_orth_lim_ psi) with false
      by (symmetry; apply Z.ltb_ge; lia).
    destruct (getBool args "UseSVD" false
              || (getReal args "Noise" 0 =? 0)%float
                 && (getReal args "Cutoff" MIN_CUT <? 1e-12)%float); cbn;
      (destruct Hr as [Hr | Hr];
       [ rewrite Hr; reflexivity
       | destruct (vec_at_cases (A_ psi) b) as [[x Hx] | Hx]; rewrite Hx; cbn;
         [ rewrite Hr; reflexivity | reflexivity ] ]).
Qed.

(** A call that returns has passed the gauge check and found both tensors. *)
Lemma svdBond_Ok_inv b AA dir PH args psi res psi' out :
  svdBond b AA dir PH args psi = (Ok res, psi', out) ->
  gauge_ok dir b psi /\
  exists Ab Ab1, vec_at (A_ psi) b = Ok Ab /\ vec_at (A_ psi) (b + 1) = Ok Ab1.
Proof.
  intros Hrun.
  destruct (gauge_ok_dec dir b psi) as [Hg | Hg].
  - split; [assumption|].
    destruct (vec_at_cases (A_ psi) b) as [[Ab Hb] | Hb],
             (vec_at_cases (A_ psi) (b + 1)) as [[Ab1 Hb1] | Hb1]; eauto;
      pose proof (svdBond_out_of_range b AA dir PH args psi Hg) as Hoor;
      rewrite Hrun in Hoor; cbn in Hoor; discriminate Hoor; auto.
  - rewrite (svdBond_gauge_fail _ _ _ _ _ _ Hg) in Hrun. discriminate.
Qed.

(** C1. A call [svdBond b AA dir PH args] that passes its precondition check
    (on a bond whose two tensors exist) returns, and it leaves the
    orthogonality window as follows: for [Fromleft], [leftLim] is [b] and
    [rightLim] is the maximum of the old [rightLim] and [b+2]; for
    [Fromright], [rightLim] is [b+1] and [leftLim] is the minimum of the old
    [leftLim] and [b-1]. *)
Theorem svdBond_window b AA dir PH args (psi : MPS) :
  gauge_ok dir b psi ->
  0 <= b -> b + 1 < Z.of_nat (length (A_ psi)) ->
  exists res psi',
    svdBond b AA dir PH args psi = (Ok res, psi', []) /\
    match dir with
    | Fromleft =>
        leftLim psi' = b /\ rightLim psi' = Z.max (rightLim psi) (b + 2)
    | Fromright =>
        rightLim psi' = b + 1 /\ leftLim psi' = Z.min (leftLim psi) (b - 1)
    end.
Proof.
  intros Hg H0 H1.
  destruct (vec_at_in_range (A_ psi) b) as [Ab Hb]; [lia|].
  destruct (vec_at_in_range (A_ psi) (b + 1)) as [Ab1 Hb1]; [lia|].
  rewrite (svdBond_run _ AA _ PH args _ _ _ Hg Hb Hb1).
  destruct (if exact_mode args then _ else _) as [[res Tb] Tb1].
  eexists _, _. split; [reflexivity|].
  destruct dir; cbn; auto.
Qed.

(** C3. [svdBond] runs the exact SVD branch if and only if [UseSVD] is set,
    or [Noise == 0] and [Cutoff < 1e-12]: then the diagonal factor [D]
    (rescaled to unit norm first when [DoNormalize] is set) is multiplied
    into [A[b+1]] for [Fromleft] and into [A[b]] for [Fromright]. In every
    other case the density-matrix branch runs. *)
Theorem svdBond_mode b AA dir PH args (psi : MPS) Ab Ab1 :
  gauge_ok dir b psi ->
  vec_at (A_ psi) b = Ok Ab -> vec_at (A_ psi) (b + 1) = Ok Ab1 ->
  exists res psi',
    svdBond b AA dir PH args psi = (Ok res, psi', []) /\
    if getBool args "UseSVD" false
       || (PrimFloat.eqb (getReal args "Noise" 0%float) 0%float
           && PrimFloat.ltb (getReal args "Cutoff" MIN_CUT) 1e-12%float)
    then
      let '(res0, U, D, V) := svd AA Ab ITensor_default Ab1 args in
      let D' := if getBool args "DoNormalize" false
                then scale D (1 / norm_T D)%float else D in
      res = res0 /\
      match dir with
      | Fromleft => A psi' b = Ok U /\ A psi' (b + 1) = Ok (contract V D')
      | Fromright => A psi' b = Ok (contract U D') /\ A psi' (b + 1) = Ok V
      end
    else
      let '(res0, Tb, Tb1) := denmat_split AA Ab Ab1 dir PH args in
      res = res0 /\ A psi' b = Ok Tb /\ A psi' (b + 1) = Ok Tb1.
Proof.
  intros Hg Hb Hb1.
  pose proof (vec_at_Ok_range _ _ _ Hb) as Rb.
  pose proof (vec_at_Ok_range _ _ _ Hb1) as Rb1.
  rewrite (svdBond_run _ AA _ PH args _ _ _ Hg Hb Hb1).
  unfold exact_mode, exact_split.
  assert (Hread : forall Tb Tb1,
            vec_at (<[Z.to_nat (b + 1) := Tb1]> (<[Z.to_nat b := Tb]> (A_ psi))) b = Ok Tb
            /\ vec_at (<[Z.to_nat (b + 1) := Tb1]> (<[Z.to_nat b := Tb]> (A_ psi))) (b + 1)
               = Ok Tb1).
  { intros Tb Tb1. split.
    - rewrite vec_at_insert_ne by lia. apply vec_at_insert_eq. lia.
    - apply vec_at_insert_eq. rewrite length_insert. lia. }
  destruct (getBool args "UseSVD" false
            || (getReal args "Noise" 0 =? 0)%float
               && (getReal args "Cutoff" MIN_CUT <? 1e-12)%float).
  - destruct (svd AA Ab ITensor_default Ab1 args) as [[[res U] D] V].
    destruct dir; eexists _, _; (split; [reflexivity|]);
      (split; [reflexivity|]); unfold A; cbn; apply Hread.
  - destruct (denmat_split AA Ab Ab1 dir PH args) as [[res Tb] Tb1].
    eexists _, _. split; [reflexivity|].
    split; [reflexivity|]. unfold A; cbn. apply Hread.
Qed.

(** C9. A successful call [svdBond b AA dir PH args] changes only the site
    tensors at positions [b] and [b+1] and the two cursors: the length [N]
    and the site tensor at every other position are as before. *)
Theorem svdBond_frame b AA dir PH args (psi : MPS) res psi' out :
  svdBond b AA dir PH args psi = (Ok res, psi', out) ->
  N psi' = N psi /\
  length (A_ psi') = length (A_ psi) /\
  forall j, j <> b -> j <> b + 1 -> A psi' j = A psi j.
Proof.
  intros Hrun.
  destruct (svdBond_Ok_inv _ _ _ _ _ _ _ _ _ Hrun) as (Hg & Ab & Ab1 & Hb & Hb1).
  pose proof (vec_at_Ok_range _ _ _ Hb) as Rb.
  rewrite (svdBond_run _ AA _ PH args _ _ _ Hg Hb Hb1) in Hrun.
  destruct (if exact_mode args then _ else _) as [[res0 Tb] Tb1].
  injection Hrun as _ <- _. cbn.
  split; [reflexivity|]. split; [now rewrite !length_insert|].
  intros j Hj Hj1. unfold A; cbn.
  rewrite !vec_at_insert_ne by lia. reflexivity.
Qed.

(** C4. [isOrtho psi] holds exactly when [leftLim+1 == rightLim-1]; then
    [orthoCenter psi] returns [leftLim+1] and [norm psi] is the norm of the
    single tensor [A(leftLim+1)]; otherwise [orthoCenter] and [norm] both
    abort with an error and return nothing. *)
Theorem orthoCenter_norm (psi : MPS) :
  (isOrtho psi = true <-> leftLim psi + 1 = rightLim psi - 1)
  /\ (isOrtho psi = true ->
      orthoCenter psi = Ok (leftLim psi + 1) /\
      norm psi = norm_T <$> A psi (leftLim psi + 1))
  /\ (isOrtho psi = false ->
      orthoCenter psi = Fatal "orthogonality center not well defined." /\
      is_fatal (norm psi)).
Proof.
  split; [apply Z.eqb_eq|].
  unfold norm, orthoCenter. split; intros ->; cbn.
  - split; [reflexivity|].
    destruct (A psi (leftLim psi + 1)); reflexivity.
  - split; [reflexivity|]. eexists. reflexivity.
Qed.

(** C10. [applyGate gate psi args] aborts with the orthogonality-center error
    whenever [psi] has no well-defined orthogonality center, leaving [psi]
    as it was and printing nothing; when the center [c] is well defined it
    contracts [A(c) * A(c+1) * gate], removes the priming, and invokes
    [svdBond] on bond [c], [Fromleft] when the option [Fromleft] (default
    true) is true and [Fromright] otherwise. *)
Theorem applyGate_center gate args (psi : MPS) :
  (leftLim psi + 1 <> rightLim psi - 1 ->
   applyGate gate args psi =
     (Fatal "orthogonality center not well defined.", psi, []))
  /\ (leftLim psi + 1 = rightLim psi - 1 ->
      forall Ac Ac1,
        A psi (leftLim psi + 1) = Ok Ac ->
        A psi (leftLim psi + 1 + 1) = Ok Ac1 ->
        applyGate gate args psi =
          let dir := if getBool args "Fromleft" true then Fromleft else Fromright in
          let '(r, psi', out) :=
            svdBond4 (leftLim psi + 1) (noprime (contract (contract Ac Ac1) gate))
                     dir args psi in
          (r ;; Ok tt, psi', out)).
Proof.
  split.
  - intros Hne. apply Z.eqb_neq in Hne.
    unfold applyGate, mbind, St_bind, st_bind, st_lift, orthoCenter, isOrtho.
    rewrite Hne. reflexivity.
  - intros Heq Ac Ac1 Hc Hc1. apply Z.eqb_eq in Heq.
    unfold applyGate, mbind, St_bind, st_bind, st_lift, st_ret, orthoCenter, isOrtho.
    rewrite Heq. cbn. rewrite Hc, Hc1. cbn.
    destruct (getBool args "Fromleft" true); cbn;
      destruct (svdBond4 _ _ _ _ _) as [[[r | msg |] psi'] out]; cbn;
      rewrite ?app_nil_r; reflexivity.
Qed.

Lemma overlap_loop_returns (psi phi : MPS) (count : nat) (i : Z) (L : ITensor) :
  0 <= i ->
  i + Z.of_nat count <= Z.of_nat (length (A_ psi)) ->
  i + Z.of_nat count <= Z.of_nat (length (A_ phi)) ->
  exists L', overlap_loop psi phi count i L = Ok L'.
Proof.
  revert i L. induction count as [|count IH]; intros i L Hi Hpsi Hphi; cbn.
  - eauto.
  - unfold A.
    destruct (vec_at_in_range (A_ phi) i) as [x ->]; [lia|].
    destruct (vec_at_in_range (A_ psi) i) as [y ->]; [lia|].
    cbn. apply IH; lia.
Qed.

Ltac outcome_run := cbn [mbind outcome_bind fmap outcome_fmap negb].

Lemma overlapC_returns (psi phi : MPS) :
  N psi = N phi -> 1 <= N psi ->
  N psi + 2 <= Z.of_nat (length (A_ psi)) ->
  N phi + 2 <= Z.of_nat (length (A_ phi)) ->
  exists z, overlapC psi phi = Ok z.
Proof.
  intros He H1 Hpsi Hphi. unfold overlapC, linkInd, A. cbv zeta.
  rewrite <- He, Z.eqb_refl. outcome_run.
  destruct (vec_at_in_range (A_ psi) 1) as [a1 ->]; [lia|].
  destruct (vec_at_in_range (A_ psi) (1 + 1)) as [a2 ->]; [lia|].
  destruct (vec_at_in_range (A_ phi) 1) as [b1 ->]; [lia|].
  outcome_run. destruct (Z.eqb_spec (N psi) 1) as [E1 | N1]; [eauto|].
  destruct (overlap_loop_returns psi phi (Z.to_nat (N psi - 2)) 2
              (if Index_bool (commonIndex a1 a2 Link)
               then contract b1 (dag (prime_index a1 (commonIndex a1 a2 Link)))
               else contract b1 (dag a1))) as [L' ->]; [lia..|].
  destruct (vec_at_in_range (A_ phi) (N psi)) as [bN ->]; [lia|].
  destruct (vec_at_in_range (A_ psi) (N psi - 1)) as [aNm ->]; [lia|].
  replace (N psi - 1 + 1) with (N psi) by lia.
  destruct (vec_at_in_range (A_ psi) (N psi)) as [aN ->]; [lia|].
  outcome_run. destruct (Index_bool _); eauto.
Qed.

(** C5 (amended). [overlap psi phi] ends in the fatal error
    "overlap: mismatched N" whenever the two states differ in length [N],
    before any tensor is read. Whenever the complex overlap is computed, the
    real-valued wrapper returns its real part; when the absolute imaginary
    part exceeds 1e-12 times the absolute real part it prints a warning, and
    neither fails nor changes the value it returns. For states of equal
    length [N >= 1] that hold their [N+2] tensors every site access
    succeeds and the overlap is computed (by tensor operations that
    return). *)
Theorem overlap_mismatch_real_part (psi phi : MPS) :
  (N psi <> N phi ->
   overlapC psi phi = Fatal "overlap: mismatched N" /\
   overlap psi phi = (Fatal "overlap: mismatched N", []))
  /\ (forall z, overlapC psi phi = Ok z ->
        overlap psi phi =
          (Ok (real z),
           if PrimFloat.ltb (1e-12 * PrimFloat.abs (real z))%float
                            (PrimFloat.abs (imag z))
           then [Out_imag_warning (imag z)] else []))
  /\ (N psi = N phi -> 1 <= N psi ->
      N psi + 2 <= Z.of_nat (length (A_ psi)) ->
      N phi + 2 <= Z.of_nat (length (A_ phi)) ->
      exists z, overlapC psi phi = Ok z /\ fst (overlap psi phi) = Ok (real z)).
Proof.
  split.
  { intros Hne. apply Z.eqb_neq in Hne.
    assert (HC : overlapC psi phi = Fatal "overlap: mismatched N").
    { unfold overlapC. cbv zeta. rewrite Hne. reflexivity. }
    split; [exact HC|]. unfold overlap, overlap_re_im. rewrite HC. reflexivity. }
  split.
  { intros z Hz. unfold overlap, overlap_re_im. rewrite Hz. reflexivity. }
  intros He H1 Hpsi Hphi.
  destruct (overlapC_returns psi phi He H1 Hpsi Hphi) as [z Hz].
  exists z. split; [exact Hz|].
  unfold overlap, overlap_re_im. rewrite Hz. reflexivity.
Qed.

End MPSFacts.

(** ** Bond decomposition when the primitives can fail *)

Section DecompFailureFacts.
Import MPSImpl MPSSpec MPSFallible.
Context `{DL : DecompLib}.









End DecompFailureFacts.

Section TotalDecompFacts.
Import MPSImpl MPSSpec MPSFallible.
Context `{TL : TensorLib}.

Ltac vec_same :=
  first
    [ rewrite vec_set_in_range by (rewrite ?length_insert; lia)
    | rewrite vec_at_insert_eq by (rewrite ?length_insert; lia)
    | rewrite vec_at_insert_ne by lia ].

Ltac finish_same :=
  repeat (vec_same; cbn);
  repeat match goal with
         | |- context [if ?c then _ else _] => destruct c; cbn; repeat (vec_same; cbn)
         end;
  reflexivity.

(** With decomposition primitives that always return, [svdBond_f] is
    [svdBond]: same result, same state, same output. *)
Lemma svdBond_f_total b AA dir PH args (psi : MPS) :
  svdBond_f (DL := total_decomp) b AA dir PH args psi = svdBond b AA dir PH args psi.
Proof.
  unfold svdBond_f, svdBond, mbind, St_bind, st_bind, setBond, st_modify, st_gets,
    printfln, st_Error, st_lift, st_ret, read_A, write_A, Error,
    leftLim, rightLim, set_l_orth_lim, set_r_orth_lim, set_A.
  cbn.
  destruct (Direction_eqb dir Fromleft && (b - 1 >? l_orth_lim_ psi)); cbn;
    [reflexivity|].
  destruct (Direction_eqb dir Fromright && (b + 2 <? r_orth_lim_ psi)); cbn;
    [reflexivity|].
  destruct (getBool args "UseSVD" false
            || (getReal args "Noise" 0 =? 0)%float
               && (getReal args "Cutoff" MIN_CUT <? 1e-12)%float); cbn.
  - destruct (vec_at_cases (A_ psi) b) as [[Ab Hb] | Hb]; rewrite Hb; cbn;
      [|reflexivity].
    destruct (vec_at_cases (A_ psi) (b + 1)) as [[Ab1 Hb1] | Hb1]; rewrite Hb1; cbn;
      [|reflexivity].
    pose proof (vec_at_Ok_range _ _ _ Hb) as Rb.
    pose proof (vec_at_Ok_range _ _ _ Hb1) as Rb1.
    destruct (svd AA Ab ITensor_default Ab1 args) as [[[res U] D] V]. cbn.
    destruct dir; cbn; finish_same.
  - destruct (vec_at_cases (A_ psi) b) as [[Ab Hb] | Hb]; rewrite Hb; cbn;
      [|reflexivity].
    destruct (vec_at_cases (A_ psi) (b + 1)) as [[Ab1 Hb1] | Hb1]; rewrite Hb1; cbn;
      [|reflexivity].
    pose proof (vec_at_Ok_range _ _ _ Hb) as Rb.
    pose proof (vec_at_Ok_range _ _ _ Hb1) as Rb1.
    destruct (denmatDecomp AA Ab Ab1 dir PH args) as [[res A'] B']. cbn.
    destruct dir; cbn; finish_same.
Qed.

End TotalDecompFacts.

(** ** Sums of matrix product states *)

Section SumFacts.
Import MPSImpl MPSSpec.
Context `{ML : MPSLib}.

Lemma pair_loop_step (terms : list MPS) (args : Args) (n np : Z) (newterms : list MPS) :
  pair_loop terms args n np newterms =
    if n <? Z.of_nat (length terms) - 1
    then match (a ← vec_at terms n;
                b ← vec_at terms (n + 1);
                vec_set newterms np (sum2 a b args)) with
         | Ok newterms' => pair_loop terms args (n + 2) (np + 1) newterms'
         | Fatal msg => Fatal msg
         | OutOfRange => OutOfRange
         end
    else Ok newterms.
Proof.
  simp pair_loop.
  destruct (Z_lt_dec n (Z.of_nat (length terms) - 1)) as [Hlt | Hge].
  - replace (n <? Z.of_nat (length terms) - 1) with true
      by (symmetry; apply Z.ltb_lt; lia).
    reflexivity.
  - replace (n <? Z.of_nat (length terms) - 1) with false
      by (symmetry; apply Z.ltb_ge; lia).
    reflexivity.
Qed.

Lemma list_pair_ind {T : Type} (P : list T -> Prop) :
  P [] -> (forall a, P [a]) -> (forall a b l, P l -> P (a :: b :: l)) ->
  forall l, P l.
Proof.
  intros H0 H1 H2 l.
  assert (H : P l /\ forall a, P (a :: l)).
  { induction l as [|x l [IH IH']]; [auto|]. split; [apply IH' | intros a; apply H2, IH]. }
  apply H.
Qed.

Lemma vec_at_app_r {T : Type} (pre rest : list T) (k : nat) :
  vec_at (pre ++ rest) (Z.of_nat (length pre) + Z.of_nat k) =
  match rest !! k with Some x => Ok x | None => OutOfRange end.
Proof.
  unfold vec_at.
  destruct (_ <? 0) eqn:E; [apply Z.ltb_lt in E; lia|].
  replace (Z.to_nat (Z.of_nat (length pre) + Z.of_nat k)) with (length pre + k)%nat by lia.
  rewrite lookup_app_r by lia.
  replace (length pre + k - length pre)%nat with k by lia. reflexivity.
Qed.

Lemma pair_loop_full_pairs (args : Args) (rest : list MPS) :
  forall (pre done pad : list MPS),
    (length (full_pairs rest args) <= length pad)%nat ->
    pair_loop (pre ++ rest) args (Z.of_nat (length pre)) (Z.of_nat (length done))
              (done ++ pad)
    = Ok (done ++ full_pairs rest args ++ drop (length (full_pairs rest args)) pad).
Proof.
  induction rest as [| a | a b rest IH] using list_pair_ind; intros pre done pad Hpad.
  - rewrite pair_loop_step, length_app. cbn.
    replace (_ <? _) with false by (symmetry; apply Z.ltb_ge; lia).
    reflexivity.
  - rewrite pair_loop_step, length_app. cbn.
    replace (_ <? _) with false by (symmetry; apply Z.ltb_ge; lia).
    reflexivity.
  - rewrite pair_loop_step, length_app. cbn [length full_pairs] in *.
    replace (_ <? _) with true by (symmetry; apply Z.ltb_lt; lia).
    pose proof (vec_at_app_r pre (a :: b :: rest) 0) as E0.
    pose proof (vec_at_app_r pre (a :: b :: rest) 1) as E1.
    change (Z.of_nat 0) with 0 in E0. change (Z.of_nat 1) with 1 in E1.
    rewrite Z.add_0_r in E0. cbn [lookup list_lookup] in E0, E1. rewrite E0, E1.
    cbn [mbind outcome_bind].
    destruct pad as [|p pad]; [cbn in Hpad; lia|].
    rewrite vec_set_in_range by (rewrite length_app; cbn; lia).
    rewrite Nat2Z.id.
    replace (<[length done := sum2 a b args]> (done ++ p :: pad))
      with ((done ++ [sum2 a b args]) ++ pad)
      by (rewrite insert_app_r_alt, Nat.sub_diag by lia; cbn;
          now rewrite <- app_assoc).
    replace (Z.of_nat (length pre) + 2) with (Z.of_nat (length (pre ++ [a; b])))
      by (rewrite length_app; cbn; lia).
    replace (Z.of_nat (length done) + 1) with (Z.of_nat (length (done ++ [sum2 a b args])))
      by (rewrite length_app; cbn; lia).
    replace (pre ++ a :: b :: rest) with ((pre ++ [a; b]) ++ rest)
      by (now rewrite <- app_assoc).
    rewrite IH by (cbn in Hpad; lia).
    cbn. now rewrite <- app_assoc.
Qed.

Lemma sum_step (terms : list MPS) (args : Args) :
  sum terms args =
    let Nt := Z.of_nat (length terms) in
    if Nt =? 2 then
      a ← vec_at terms 0; b ← vec_at terms 1; Ok (sum2 a b args)
    else if Nt =? 1 then vec_at terms 0
    else if Nt >? 2 then
      newterms ← pair_terms terms args; sum newterms args
    else Ok MPS_default.
Proof.
  cbv zeta. funelim (sum terms args); clear Heqcall;
    rewrite Z.gtb_ltb;
    destruct (Z.eqb_spec (Z.of_nat (length terms)) 2); try lia;
    destruct (Z.eqb_spec (Z.of_nat (length terms)) 1); try lia;
    destruct (Z.ltb_spec 2 (Z.of_nat (length terms))); try lia;
    try reflexivity;
    match goal with E : pair_terms _ _ = _ |- _ => rewrite E end; reflexivity.
Qed.

Lemma full_pairs_length (terms : list MPS) (args : Args) :
  length (full_pairs terms args) = Nat.div2 (length terms).
Proof.
  induction terms as [| a | a b rest IH] using list_pair_ind; cbn; auto.
Qed.

Lemma pairwise_full_pairs (terms : list MPS) (args : Args) :
  pairwise terms args =
    full_pairs terms args ++
    (if Nat.even (length terms) then []
     else match last terms with Some x => [x] | None => [] end).
Proof.
  induction terms as [| a | a b rest IH] using list_pair_ind; try reflexivity.
  cbn [pairwise full_pairs length Nat.even]. rewrite IH. cbn [app].
  do 2 f_equal. destruct (Nat.even (length rest)) eqn:E; [reflexivity|].
  destruct rest; [discriminate E | reflexivity].
Qed.

Lemma div2_Z (n : nat) : Z.of_nat (Nat.div2 n) = Z.of_nat n / 2.
Proof. rewrite Nat.div2_div, Nat2Z.inj_div. reflexivity. Qed.

Lemma even_Z (n : nat) : (Z.of_nat n mod 2 =? 0) = Nat.even n.
Proof.
  destruct (Nat.even n) eqn:E.
  - apply Nat.even_spec in E. destruct E as [k ->].
    apply Z.eqb_eq. rewrite Nat2Z.inj_mul. change (Z.of_nat 2) with 2.
    rewrite Z.mul_comm. apply Z.mod_mul. lia.
  - apply Z.eqb_neq.
    assert (Ho : Nat.odd n = true) by (rewrite <- Nat.negb_even, E; reflexivity).
    apply Nat.odd_spec in Ho. destruct Ho as [k ->].
    rewrite Nat2Z.inj_add, Nat2Z.inj_mul. change (Z.of_nat 2) with 2.
    change (Z.of_nat 1) with 1.
    rewrite Z.add_comm, Z.mul_comm, Z.mod_add by lia. discriminate.
Qed.

(** The loop of [sum] builds exactly the pairing of the specification. *)
Lemma pair_terms_pairwise (terms : list MPS) (args : Args) :
  pair_terms terms args = Ok (pairwise terms args).
Proof.
  unfold pair_terms. cbv zeta.
  pose proof (full_pairs_length terms args) as Hlen.
  pose proof (div2_Z (length terms)) as Hdiv.
  pose proof (pair_loop_full_pairs args terms [] []) as Hloop.
  cbn [app length] in Hloop. change (Z.of_nat 0) with 0 in Hloop.
  rewrite pairwise_full_pairs, even_Z.
  destruct (Nat.even (length terms)) eqn:Ev.
  - rewrite Hloop by (rewrite length_replicate; lia).
    cbn [mbind outcome_bind].
    assert (Hm : Z.of_nat (length terms) mod 2 = 0)
      by (apply Z.eqb_eq; rewrite even_Z; exact Ev).
    rewrite Hm. cbn. f_equal. f_equal.
    apply drop_ge. rewrite length_replicate. lia.
  - assert (Hm : Z.of_nat (length terms) mod 2 = 1).
    { pose proof (even_Z (length terms)) as H. rewrite Ev in H.
      apply Z.eqb_neq in H.
      pose proof (Z.mod_pos_bound (Z.of_nat (length terms)) 2). lia. }
    assert (Hns : (Z.of_nat (length terms) - 1) / 2 + 1
                  = Z.of_nat (S (Nat.div2 (length terms)))).
    { rewrite Nat2Z.inj_succ, Hdiv.
      rewrite (Z.div_mod (Z.of_nat (length terms)) 2) at 1 by lia.
      rewrite Hm. replace (2 * (Z.of_nat (length terms) / 2) + 1 - 1)
        with (Z.of_nat (length terms) / 2 * 2) by lia.
      rewrite Z.div_mul by lia. lia. }
    rewrite Hns, Nat2Z.id.
    rewrite Hloop by (rewrite length_replicate; lia).
    cbn [mbind outcome_bind]. rewrite Hm. cbn [Z.eqb Pos.eqb].
    rewrite Hlen. cbn [replicate drop].
    destruct terms as [|t0 terms'] eqn:Et; [discriminate Ev|]. rewrite <- Et in *.
    assert (Hlast : exists x, last terms = Some x /\
                              vec_at terms (Z.of_nat (length terms) - 1) = Ok x).
    { destruct (last terms) as [x|] eqn:El.
      - exists x. split; [reflexivity|]. unfold vec_at.
        destruct (_ <? 0) eqn:E0; [apply Z.ltb_lt in E0; subst terms; cbn in E0; lia|].
        rewrite last_lookup in El.
        replace (Z.to_nat (Z.of_nat (length terms) - 1)) with (pred (length terms)) by lia.
        now rewrite El.
      - apply last_None in El. subst terms. discriminate. }
    destruct Hlast as (x & Hl & Hat). rewrite Hat, Hl.
    cbn [mbind outcome_bind].
    change (MPS_default :: replicate (Nat.div2 (length terms)) MPS_default)
      with (replicate (S (Nat.div2 (length terms))) MPS_default).
    rewrite drop_replicate.
    replace (S (Nat.div2 (length terms)) - Nat.div2 (length terms))%nat with 1%nat by lia.
    cbn [replicate].
    rewrite vec_set_in_range by (rewrite length_app, Hlen; cbn; lia).
    replace (Z.to_nat (Z.of_nat (S (Nat.div2 (length terms))) - 1))
      with (length (full_pairs terms args)) by lia.
    rewrite insert_app_r_alt, Nat.sub_diag by lia. reflexivity.
Qed.

(** [sum] always returns. *)
Lemma sum_returns (terms : list MPS) (args : Args) :
  exists r, sum terms args = Ok r.
Proof.
  funelim (sum terms args); clear Heqcall.
  - destruct terms as [|a [|b [|c terms]]]; cbn in e; try lia. cbn. eauto.
  - destruct terms as [|a [|b terms]]; cbn in e; try lia. cbn. eauto.
  - eauto.
  - assumption.
  - pose proof (pair_terms_pairwise terms args). congruence.
  - pose proof (pair_terms_pairwise terms args). congruence.
Qed.

(** C6. [sum terms args] returns a default-constructed MPS for the empty
    list and [terms[0]] unchanged for a single term; for more than two terms
    it replaces each adjacent pair by its pairwise sum, carries a trailing
    unpaired term over unchanged, and recurses on the halved list until one
    term remains; for three terms [a], [b], [c] the result is
    [sum(sum(a,b),c)]. *)
Theorem sum_pairwise (terms : list MPS) (a b c : MPS) (args : Args) :
  sum [] args = Ok MPS_default
  /\ sum [a] args = Ok a
  /\ sum [a; b] args = Ok (sum2 a b args)
  /\ sum [a; b; c] args = Ok (sum2 (sum2 a b args) c args)
  /\ ((2 < length terms)%nat -> sum terms args = sum (pairwise terms args) args)
  /\ pairwise (a :: b :: terms) args = sum2 a b args :: pairwise terms args
  /\ pairwise [c] args = [c]
  /\ pairwise [] args = []
  /\ length (pairwise terms args) = Nat.div2 (S (length terms))
  /\ exists r, sum terms args = Ok r.
Proof.
  assert (Hrec : forall l, (2 < length l)%nat -> sum l args = sum (pairwise l args) args).
  { intros l Hl. rewrite (sum_step l). cbv zeta.
    rewrite Z.gtb_ltb.
    destruct (Z.eqb_spec (Z.of_nat (length l)) 2); [lia|].
    destruct (Z.eqb_spec (Z.of_nat (length l)) 1); [lia|].
    destruct (Z.ltb_spec 2 (Z.of_nat (length l))); [|lia].
    rewrite pair_terms_pairwise. reflexivity. }
  split; [rewrite sum_step; reflexivity|].
  split; [rewrite sum_step; reflexivity|].
  split; [rewrite sum_step; reflexivity|].
  split.
  { rewrite Hrec by (cbn; lia). cbn [pairwise].
    rewrite sum_step. reflexivity. }
  split; [apply Hrec|].
  split; [reflexivity|]. split; [reflexivity|]. split; [reflexivity|].
  split; [|apply sum_returns].
  induction terms as [| x | x y rest IH] using list_pair_ind; cbn; auto.
Qed.

End SumFacts.

(** ** Concrete runs *)

Section Runs.
Import QNAlgebra MPSImpl MPSSpec MPSFallible ScalarChain ScalarMore.

Lemma paritySign_product_electron :
  exists q12, QN_plus q_electron q_electron = Ok q12 /\
              paritySign q12 = paritySign q_electron * paritySign q_electron.
Proof.
  apply (proj2 (proj2 (proj2 (paritySign_product q_electron 1 q_electron q_electron)))).
  - reflexivity.
  - unfold store. cbn.
    repeat apply Forall_cons_2; try apply Forall_nil_2;
      cbn; intros H; try discriminate H; auto.
Defined.

Lemma svdBond_window_psi4 :
  gauge_ok (TL := scalar_lib) Fromleft 2 psi4 /\
  exists res psi',
    svdBond (TL := scalar_lib) 2 1%float Fromleft tt [] psi4 = (Ok res, psi', []) /\
    (leftLim psi' = 2 /\ rightLim psi' = Z.max (rightLim psi4) (2 + 2)).
Proof.
  assert (Hg : gauge_ok (TL := scalar_lib) Fromleft 2 psi4) by (cbn; lia).
  split; [exact Hg|].
  apply (svdBond_window (TL := scalar_lib) 2 1%float Fromleft tt [] psi4 Hg);
    cbn; lia.
Defined.



Lemma svdBond_mode_psi4 :
  exists res psi',
    svdBond (TL := scalar_lib) 2 3%float Fromleft tt [("UseSVD", BoolVal true)] psi4
      = (Ok res, psi', []) /\
    res = 3%float /\ A psi' 2 = Ok 1%float /\ A psi' (2 + 1) = Ok (1 * 3)%float.
Proof.
  exact (svdBond_mode (TL := scalar_lib) 2 3%float Fromleft tt
           [("UseSVD", BoolVal true)] psi4 1%float 1%float
           ltac:(cbn; lia) eq_refl eq_refl).
Defined.

Lemma orthoCenter_norm_psi4 :
  orthoCenter (TL := scalar_lib) psi4 = Ok 2 /\
  norm (TL := scalar_lib) psi4 = Ok 1%float.
Proof.
  exact (proj1 (proj2 (orthoCenter_norm (TL := scalar_lib) psi4)) eq_refl).
Defined.

Lemma overlap_mismatch_real_part_psi4 :
  exists z, overlapC (TL := scalar_lib) psi4 psi4 = Ok z /\
            fst (overlap (TL := scalar_lib) psi4 psi4) = Ok (real z).
Proof.
  apply (proj2 (proj2 (overlap_mismatch_real_part (TL := scalar_lib) psi4 psi4)));
    cbn; (reflexivity || lia).
Defined.

(** Two states of equal length that store no tensor (as two
    default-constructed states): the first site access fails and no overlap
    is returned. *)
Lemma overlap_equal_length_no_value :
  N (TL := scalar_lib) psi_empty = N psi_empty /\
  overlap (TL := scalar_lib) psi_empty psi_empty = (OutOfRange, []) /\
  ~ (exists re out, overlap (TL := scalar_lib) psi_empty psi_empty = (Ok re, out)).
Proof.
  split; [reflexivity|]. split; [reflexivity|].
  intros (re & out & H). discriminate H.
Qed.

Lemma svdBond_frame_psi4 :
  N (TL := scalar_lib) psi4_left = N psi4 /\
  length (A_ (TL := scalar_lib) psi4_left) = length (A_ psi4) /\
  forall j, j <> 2 -> j <> 2 + 1 -> A (TL := scalar_lib) psi4_left j = A psi4 j.
Proof.
  exact (svdBond_frame (TL := scalar_lib) 2 1%float Fromleft tt [] psi4
           1%float psi4_left [] eq_refl).
Defined.

Lemma applyGate_center_psi4 :
  applyGate (TL := scalar_lib) 1%float [] psi4_wide
    = (Fatal "orthogonality center not well defined.", psi4_wide, [])
  /\ applyGate (TL := scalar_lib) 1%float [("Fromleft", BoolVal false)] psi4
     = (Ok tt, psi4_right, []).
Proof.
  split.
  - apply (proj1 (applyGate_center (TL := scalar_lib) 1%float [] psi4_wide)).
    cbn. lia.
  - exact (proj2 (applyGate_center (TL := scalar_lib) 1%float
                    [("Fromleft", BoolVal false)] psi4)
             eq_refl 1%float 1%float eq_refl eq_refl).
Defined.

Lemma sum_pairwise_four :
  sum (TL := scalar_lib) (ML := scalar_mps) [psi4; psi4; psi4; psi4] []
  = sum (ML := scalar_mps) (pairwise (ML := scalar_mps) [psi4; psi4; psi4; psi4] []) [].
Proof.
  apply (proj1 (proj2 (proj2 (proj2 (proj2
           (sum_pairwise (ML := scalar_mps) [psi4; psi4; psi4; psi4]
                         psi4 psi4 psi4 [])))))).
  cbn. lia.
Defined.

End Runs.

(** * Further properties of the code *)

(** ** Bond decomposition and gate application *)

Section SweepFacts.
Import MPSImpl MPSSpec.
Context `{TL : TensorLib}.

(** What a returning call of [svdBond] leaves behind. *)
Lemma svdBond_Ok_state b AA dir PH args (psi : MPS) res psi' out :
  svdBond b AA dir PH args psi = (Ok res, psi', out) ->
  gauge_ok dir b psi /\
  0 <= b /\ b + 1 < Z.of_nat (length (A_ psi)) /\
  out = [] /\
  N_ psi' = N_ psi /\
  l_orth_lim_ psi' = fst (window_after dir b psi) /\
  r_orth_lim_ psi' = snd (window_after dir b psi) /\
  exists Tb Tb1,
    A_ psi' = <[Z.to_nat (b + 1) := Tb1]> (<[Z.to_nat b := Tb]> (A_ psi)).
Proof.
  intros Hrun.
  destruct (svdBond_Ok_inv _ _ _ _ _ _ _ _ _ Hrun) as (Hg & Ab & Ab1 & Hb & Hb1).
  pose proof (vec_at_Ok_range _ _ _ Hb) as Rb.
  pose proof (vec_at_Ok_range _ _ _ Hb1) as Rb1.
  rewrite (svdBond_run _ AA _ PH args _ _ _ Hg Hb Hb1) in Hrun.
  destruct (if exact_mode args then _ else _) as [[res0 Tb] Tb1].
  injection Hrun as _ <- <-. cbn.
  repeat split; try assumption; try lia. eauto.
Qed.

(** X1. When the gauge check of [svdBond] fails, the call aborts before any
    tensor is read or written: the site tensors, the length and both
    cursors are as before, and exactly one diagnostic line is printed, with
    the bond and the cursor that was compared. *)
Theorem svdBond_abort_untouched b AA dir PH args (psi : MPS) :
  ~ gauge_ok dir b psi ->
  exists msg psi',
    svdBond b AA dir PH args psi =
      (Fatal msg, psi',
       [match dir with
        | Fromleft => Out_b_l_orth_lim b (leftLim psi)
        | Fromright => Out_b_r_orth_lim b (rightLim psi)
        end]) /\
    A_ psi' = A_ psi /\ N psi' = N psi /\
    leftLim psi' = leftLim psi /\ rightLim psi' = rightLim psi.
Proof.
  intros Hg. rewrite (svdBond_gauge_fail _ _ _ _ _ _ Hg).
  eexists _, _. split; [reflexivity|]. cbn. auto.
Qed.

(** X2. After every call of [svdBond] that returns, the orthogonality window
    is not collapsed: [leftLim + 1 <= rightLim - 1], whatever the cursors
    were before. It has a single center exactly when the old [rightLim] was
    at most [b+2] (leftward) or the old [leftLim] at least [b-1]
    (rightward). *)
Theorem svdBond_window_open b AA dir PH args (psi : MPS) res psi' out :
  svdBond b AA dir PH args psi = (Ok res, psi', out) ->
  leftLim psi' + 1 <= rightLim psi' - 1 /\
  (isOrtho psi' = true <->
     match dir with
     | Fromleft => rightLim psi <= b + 2
     | Fromright => b - 1 <= leftLim psi
     end).
Proof.
  intros Hrun.
  destruct (svdBond_Ok_state _ _ _ _ _ _ _ _ _ Hrun)
    as (_ & _ & _ & _ & _ & Hl & Hr & _).
  unfold isOrtho, leftLim, rightLim in *. rewrite Hl, Hr, Z.eqb_eq.
  destruct dir; cbn; unfold leftLim, rightLim; lia.
Qed.

(** X3. Sweeps compose. After a leftward call on bond [b] has returned, the
    leftward call on bond [b+1] passes its gauge check, and so does the
    rightward call on [b] itself if the old [rightLim] was at most [b+2];
    after a rightward call on [b], the rightward call on [b-1] passes, and
    so does the leftward call on [b] if the old [leftLim] was at least
    [b-1]. *)
Theorem svdBond_sweep b AA dir PH args (psi : MPS) res psi' out :
  svdBond b AA dir PH args psi = (Ok res, psi', out) ->
  match dir with
  | Fromleft =>
      gauge_ok Fromleft (b + 1) psi' /\
      (rightLim psi <= b + 2 -> gauge_ok Fromright b psi')
  | Fromright =>
      gauge_ok Fromright (b - 1) psi' /\
      (b - 1 <= leftLim psi -> gauge_ok Fromleft b psi')
  end.
Proof.
  intros Hrun.
  destruct (svdBond_Ok_state _ _ _ _ _ _ _ _ _ Hrun)
    as (_ & _ & _ & _ & _ & Hl & Hr & _).
  unfold gauge_ok, leftLim, rightLim in *. rewrite Hl, Hr.
  destruct dir; cbn; unfold leftLim, rightLim; lia.
Qed.

(** X4. [applyGate] on a state with a single orthogonality center [c] whose
    tensors [A(c)], [A(c+1)] are stored never trips the gauge check: it
    returns without printing, the state has a single center again, at
    [c+1] when the option [Fromleft] is true and still at [c] otherwise,
    and the length and every site tensor other than [c] and [c+1] are
    unchanged. *)
Theorem applyGate_moves_center gate args (psi : MPS) :
  isOrtho psi = true ->
  0 <= leftLim psi + 1 ->
  leftLim psi + 1 + 1 < Z.of_nat (length (A_ psi)) ->
  exists psi',
    applyGate gate args psi = (Ok tt, psi', []) /\
    orthoCenter psi' =
      Ok (if getBool args "Fromleft" true then leftLim psi + 1 + 1
          else leftLim psi + 1) /\
    N psi' = N psi /\
    forall j, j <> leftLim psi + 1 -> j <> leftLim psi + 1 + 1 ->
              A psi' j = A psi j.
Proof.
  intros Ho H0 H1.
  pose proof Ho as Hc. unfold isOrtho in Hc. apply Z.eqb_eq in Hc.
  destruct (vec_at_in_range (A_ psi) (leftLim psi + 1)) as [Ac HAc]; [lia|].
  destruct (vec_at_in_range (A_ psi) (leftLim psi + 1 + 1)) as [Ac1 HAc1]; [lia|].
  unfold applyGate, mbind, St_bind, st_bind, st_lift, st_ret, orthoCenter, A, svdBond4.
  rewrite Ho. cbn. rewrite HAc, HAc1. cbn.
  set (AA := noprime (contract (contract Ac Ac1) gate)).
  assert (Hgl : gauge_ok Fromleft (leftLim psi + 1) psi) by (cbn; lia).
  assert (Hgr : gauge_ok Fromright (leftLim psi + 1) psi) by (cbn; lia).
  destruct (getBool args "Fromleft" true).
  - rewrite (svdBond_run _ AA Fromleft default_PH args _ _ _ Hgl HAc HAc1).
    destruct (if exact_mode args then _ else _) as [[res Tb] Tb1]. cbn.
    eexists. split; [reflexivity|].
    unfold isOrtho, leftLim, rightLim, N in *. cbn.
    replace (_ =? _) with true by (symmetry; apply Z.eqb_eq; lia). cbn.
    repeat split. intros j Hj Hj1. rewrite !vec_at_insert_ne by lia. reflexivity.
  - rewrite (svdBond_run _ AA Fromright default_PH args _ _ _ Hgr HAc HAc1).
    destruct (if exact_mode args then _ else _) as [[res Tb] Tb1]. cbn.
    eexists. split; [reflexivity|].
    unfold isOrtho, leftLim, rightLim, N in *. cbn.
    replace (_ =? _) with true by (symmetry; apply Z.eqb_eq; lia). cbn.
    split; [f_equal; lia|].
    repeat split. intros j Hj Hj1. rewrite !vec_at_insert_ne by lia. reflexivity.
Qed.

(** X5. The projector [PH] is consulted by the density-matrix branch only:
    when [UseSVD] is set, or [Noise == 0] and [Cutoff < 1e-12], the whole
    outcome of [svdBond] (result, state and output, also on failure) is the
    same for any two projectors. *)
Theorem svdBond_exact_ignores_PH b AA dir PH PH' args (psi : MPS) :
  getBool args "UseSVD" false
  || (PrimFloat.eqb (getReal args "Noise" 0%float) 0%float
      && PrimFloat.ltb (getReal args "Cutoff" MIN_CUT) 1e-12%float) = true ->
  svdBond b AA dir PH args psi = svdBond b AA dir PH' args psi.
Proof.
  intros Hm. unfold svdBond. cbv zeta. rewrite Hm. reflexivity.
Qed.

End SweepFacts.

(** ** Overlaps *)

Section OverlapFacts.
Import MPSImpl MPSSpec.
Context `{TL : TensorLib}.

Lemma overlap_loop_reads (psi psi' phi phi' : MPS) (count : nat) (i : Z) (L : ITensor) :
  (forall j, i <= j < i + Z.of_nat count -> A psi' j = A psi j) ->
  (forall j, i <= j < i + Z.of_nat count -> A phi' j = A phi j) ->
  overlap_loop psi' phi' count i L = overlap_loop psi phi count i L.
Proof.
  revert i L. induction count as [|count IH]; intros i L Hpsi Hphi; [reflexivity|].
  cbn [overlap_loop]. rewrite Hpsi, Hphi by lia.
  destruct (A phi i) as [x | |]; cbn [mbind outcome_bind]; try reflexivity.
  destruct (A psi i) as [y | |]; cbn [mbind outcome_bind]; try reflexivity.
  apply IH; intros j Hj; [apply Hpsi | apply Hphi]; lia.
Qed.

(** X6. The overlap of two states of length [N >= 1] depends only on [N]
    and on the site tensors at positions 1..N (and on position 2 of [psi]
    when [N = 1], which [linkInd(psi,1)] reads): the orthogonality cursors
    and the other stored tensors are never consulted. *)
Theorem overlap_reads_sites (psi psi' phi phi' : MPS) :
  1 <= N psi -> N psi' = N psi -> N phi' = N phi ->
  (forall j, 1 <= j <= Z.max (N psi) 2 -> A psi' j = A psi j) ->
  (forall j, 1 <= j <= N psi -> A phi' j = A phi j) ->
  overlapC psi' phi' = overlapC psi phi /\ overlap psi' phi' = overlap psi phi.
Proof.
  intros HN Hn Hn' Hpsi Hphi.
  assert (HC : overlapC psi' phi' = overlapC psi phi).
  { unfold overlapC, linkInd. cbv zeta. rewrite Hn, Hn'.
    destruct (N psi =? N phi); cbn [negb mbind outcome_bind]; [|reflexivity].
    rewrite !(Hpsi 1), (Hpsi (1 + 1)), (Hphi 1) by lia.
    destruct (A psi 1) as [a1 | |]; cbn [mbind outcome_bind]; try reflexivity.
    destruct (A psi (1 + 1)) as [a2 | |]; cbn [mbind outcome_bind]; try reflexivity.
    destruct (A phi 1) as [b1 | |]; cbn [mbind outcome_bind]; try reflexivity.
    destruct (Z.eqb_spec (N psi) 1) as [E1 | N1]; [reflexivity|].
    rewrite (overlap_loop_reads psi psi' phi phi')
      by (intros j Hj; first [apply Hpsi | apply Hphi]; lia).
    destruct (overlap_loop psi phi _ 2 _) as [L' | |];
      cbn [mbind outcome_bind]; try reflexivity.
    rewrite (Hphi (N psi)), (Hpsi (N psi - 1)), (Hpsi (N psi - 1 + 1)),
      (Hpsi (N psi)) by lia.
    reflexivity. }
  split; [exact HC|]. unfold overlap, overlap_re_im. now rewrite HC.
Qed.

End OverlapFacts.

(** ** Sums under an exact pairwise addition *)

Section SumFoldFacts.
Import MPSImpl MPSSpec.
Context `{ML : MPSLib}.

Lemma foldl_pairwise (args : Args) (terms : list MPS) :
  (forall x y z, sum2 (sum2 x y args) z args = sum2 x (sum2 y z args) args) ->
  forall acc,
    foldl (fun acc t => sum2 acc t args) acc (pairwise terms args)
    = foldl (fun acc t => sum2 acc t args) acc terms.
Proof.
  intros Hassoc.
  induction terms as [| a | a b rest IH] using list_pair_ind; intros acc;
    try reflexivity.
  cbn [pairwise foldl]. rewrite IH, Hassoc. reflexivity.
Qed.

Lemma pairwise_length (terms : list MPS) (args : Args) :
  length (pairwise terms args) = Nat.div2 (S (length terms)).
Proof.
  induction terms as [| x | x y rest IH] using list_pair_ind; cbn; auto.
Qed.

(** X7. When the pairwise addition is associative (as it is when nothing is
    truncated), the balanced pairing of [sum] gives the same state as adding
    the terms one after the other from the left. *)
Theorem sum_associative_fold (args : Args) (a : MPS) (terms : list MPS) :
  (forall x y z, sum2 (sum2 x y args) z args = sum2 x (sum2 y z args) args) ->
  sum (a :: terms) args = Ok (foldl (fun acc t => sum2 acc t args) a terms).
Proof.
  intros Hassoc.
  remember (length terms) as n eqn:Hn.
  revert a terms Hn.
  induction n as [n IH] using lt_wf_ind. intros a terms Hn.
  rewrite sum_step. cbv zeta.
  destruct terms as [|b [|c rest]].
  - reflexivity.
  - reflexivity.
  - rewrite Z.gtb_ltb.
    destruct (Z.eqb_spec (Z.of_nat (length (a :: b :: c :: rest))) 2) as [E|_];
      [cbn in E; lia|].
    destruct (Z.eqb_spec (Z.of_nat (length (a :: b :: c :: rest))) 1) as [E|_];
      [cbn in E; lia|].
    destruct (Z.ltb_spec 2 (Z.of_nat (length (a :: b :: c :: rest)))) as [_|E];
      [|cbn in E; lia].
    rewrite pair_terms_pairwise. cbn [mbind outcome_bind].
    change (pairwise (a :: b :: c :: rest) args)
      with (sum2 a b args :: pairwise (c :: rest) args).
    rewrite (IH (length (pairwise (c :: rest) args))); [| |reflexivity].
    2:{ subst n. rewrite pairwise_length. cbn [length Nat.div2].
        pose proof (Nat.div2_div (length rest)) as Hd.
        pose proof (Nat.div_mod_eq (length rest) 2) as Hm.
        pose proof (Nat.mod_upper_bound (length rest) 2 ltac:(lia)). lia. }
    rewrite foldl_pairwise by assumption. reflexivity.
Qed.

End SumFoldFacts.

(** ** Diagnostics: [isComplex], [maxM], [normalize], [checkOrtho] *)

Section MoreFacts.
Import MPSImpl MPSMore.
Context `{TM : TensorLibMore}.

Lemma isComplex_loop_spec (psi : MPS) (count : nat) (j : Z) :
  (forall k, j <= k < j + Z.of_nat count -> exists t, A psi k = Ok t) ->
  exists b,
    isComplex_loop psi count j = Ok b /\
    (b = true <->
     exists k t, j <= k < j + Z.of_nat count /\ A psi k = Ok t /\ isComplexT t = true).
Proof.
  revert j. induction count as [|count IH]; intros j Hst.
  - exists false. split; [reflexivity|]. split; [discriminate|].
    intros (k & t & Hk & _). lia.
  - cbn [isComplex_loop].
    destruct (Hst j ltac:(lia)) as [t Ht]. rewrite Ht. cbn [mbind outcome_bind].
    destruct (isComplexT t) eqn:Ec.
    + exists true. split; [reflexivity|]. split; [|reflexivity].
      intros _. exists j, t. repeat split; [lia | lia | assumption | assumption].
    + destruct (IH (j + 1)) as (b & Hb & Hiff); [intros k Hk; apply Hst; lia|].
      exists b. split; [exact Hb|]. rewrite Hiff. split.
      * intros (k & t' & Hk & Hk'). exists k, t'. split; [lia | assumption].
      * intros (k & t' & Hk & HA & Hc).
        destruct (Z.eq_dec k j) as [-> | Hne]; [congruence|].
        exists k, t'. repeat split; [lia | lia | assumption | assumption].
Qed.

(** X8. On a state that stores its sites 1..N, [isComplex] returns, and it
    returns true exactly when some site tensor among 1..N is complex; the
    boundary slots are not looked at. *)
Theorem isComplex_iff_some_site (psi : MPS) :
  N psi < Z.of_nat (length (A_ psi)) ->
  exists b,
    isComplex psi = Ok b /\
    (b = true <->
     exists k t, 1 <= k <= N psi /\ A psi k = Ok t /\ isComplexT t = true).
Proof.
  intros Hst. unfold isComplex.
  destruct (isComplex_loop_spec psi (Z.to_nat (N psi)) 1) as (b & Hb & Hiff).
  { intros k Hk. apply vec_at_in_range. lia. }
  exists b. split; [exact Hb|]. rewrite Hiff.
  split; intros (k & t & Hk & H); exists k, t; (split; [lia | exact H]).
Qed.

Lemma maxM_loop_spec (psi : MPS) (count : nat) (b acc : Z) :
  (forall k, b <= k <= b + Z.of_nat count -> exists t, A psi k = Ok t) ->
  exists m,
    maxM_loop psi count b acc = Ok m /\ acc <= m /\
    (forall k t t', b <= k < b + Z.of_nat count ->
       A psi k = Ok t -> A psi (k + 1) = Ok t' ->
       Index_m (commonIndex_any t t') <= m) /\
    (m = acc \/
     exists k t t', b <= k < b + Z.of_nat count /\
       A psi k = Ok t /\ A psi (k + 1) = Ok t' /\
       m = Index_m (commonIndex_any t t')).
Proof.
  revert b acc. induction count as [|count IH]; intros b acc Hst.
  - exists acc. split; [reflexivity|]. split; [lia|]. split; [|auto].
    intros k t t' Hk. lia.
  - cbn [maxM_loop].
    destruct (Hst b ltac:(lia)) as [t Ht].
    destruct (Hst (b + 1) ltac:(lia)) as [t' Ht'].
    rewrite Ht, Ht'. cbn [mbind outcome_bind]. cbv zeta.
    destruct (IH (b + 1) (Z.max (Index_m (commonIndex_any t t')) acc))
      as (m & Hm & Hle & Hub & Hatt); [intros k Hk; apply Hst; lia|].
    exists m. split; [exact Hm|]. split; [lia|]. split.
    + intros k u u' Hk Hu Hu'.
      destruct (Z.eq_dec k b) as [-> | Hne].
      * rewrite Ht in Hu. rewrite Ht' in Hu'.
        injection Hu as <-. injection Hu' as <-. lia.
      * apply (Hub k); [lia | assumption | assumption].
    + destruct Hatt as [-> | (k & u & u' & Hk & Hu & Hu' & ->)].
      * destruct (Z.max_spec (Index_m (commonIndex_any t t')) acc) as [[_ ->] | [_ ->]].
        -- now left.
        -- right. exists b, t, t'. repeat split; [lia | lia | assumption | assumption].
      * right. exists k, u, u'. repeat split; [lia | lia | assumption | assumption].
Qed.

(** X9. On a state that stores its sites 1..N, [maxM] returns a value that
    is never negative, that bounds the dimension of the index shared by
    every pair of neighbouring sites, and that is zero (as for [N <= 1]) or
    the dimension of one of these bonds. *)
Theorem maxM_bounds (psi : MPS) :
  N psi < Z.of_nat (length (A_ psi)) ->
  exists m,
    maxM psi = Ok m /\ 0 <= m /\
    (N psi <= 1 -> m = 0) /\
    (forall b t t', 1 <= b < N psi ->
       A psi b = Ok t -> A psi (b + 1) = Ok t' ->
       Index_m (commonIndex_any t t') <= m) /\
    (m = 0 \/
     exists b t t', 1 <= b < N psi /\
       A psi b = Ok t /\ A psi (b + 1) = Ok t' /\
       m = Index_m (commonIndex_any t t')).
Proof.
  intros Hst. unfold maxM.
  destruct (Z_le_gt_dec (N psi) 1) as [H1 | H1].
  - replace (Z.to_nat (N psi - 1)) with 0%nat by lia.
    exists 0. cbn. repeat split; try lia; auto.
  - destruct (maxM_loop_spec psi (Z.to_nat (N psi - 1)) 1 0)
      as (m & Hm & Hle & Hub & Hatt).
    { intros k Hk. apply vec_at_in_range. lia. }
    exists m. split; [exact Hm|]. split; [exact Hle|]. split; [lia|]. split.
    + intros b t t' Hb. apply Hub. lia.
    + destruct Hatt as [-> | (k & u & u' & Hk & H)]; [now left|].
      right. exists k, u, u'. split; [lia | exact H].
Qed.

(** X10. [normalize] leaves the state untouched whenever it fails: without a
    single orthogonality center it aborts with the error of [norm]; with a
    center whose norm has absolute value below 1e-20 it aborts with
    "Zero norm"; otherwise it divides the state by the norm and returns the
    norm it computed before the division. It prints nothing. *)
Theorem normalize_cases (psi : MPS) :
  (isOrtho psi = false ->
   exists msg, normalize psi = (Fatal msg, psi, []))
  /\ (isOrtho psi = true ->
      forall t, A psi (leftLim psi + 1) = Ok t ->
        normalize psi =
          if PrimFloat.ltb (PrimFloat.abs (norm_T t)) 1e-20%float
          then (Fatal "Zero norm", psi, [])
          else (Ok (norm_T t), MPS_div psi (norm_T t), [])).
Proof.
  unfold normalize, st_bind, st_lift, st_ret, st_modify, st_Error, norm, orthoCenter.
  split.
  - intros ->. cbn. eexists. reflexivity.
  - intros -> t Ht. cbn. rewrite Ht. cbn.
    destruct (PrimFloat.ltb (PrimFloat.abs (norm_T t)) 1e-20%float); reflexivity.
Qed.

Lemma checkOrtho_at_cases (psi : MPS) (i : Z) (left : bool) :
  forall ok out,
    checkOrtho_at psi i left = (Ok ok, out) ->
    (ok = true /\ out = []) \/
    (ok = false /\
     exists x, PrimFloat.ltb x 1e-13%float = false /\
               out = [Chk_on_line 202; Chk_failed i left;
                      Chk_norm_Diff x; Chk_threshold 1e-13%float]).
Proof.
  unfold checkOrtho_at, mbind, W_bind, w_bind, w_lift, w_ret, println.
  destruct (if left then rightLinkInd psi i else leftLinkInd psi i)
    as [link | msg |] eqn:El; [|discriminate..].
  destruct (A psi i) as [Ai | msg |] eqn:EA; [|discriminate..].
  cbv zeta.
  destruct (PrimFloat.ltb (norm_T _) 1e-13%float) eqn:En.
  - intros ok out [= <- <-]. now left.
  - cbn. intros ok out [= <- <-]. right.
    split; [reflexivity|]. eexists. split; [exact En | reflexivity].
Qed.


#[local] Arguments checkOrtho_at : simpl never.

Lemma checkOrtho_left_spec (psi : MPS) (count : nat) (i : Z) :
  (fst (checkOrtho_left psi count i) = Ok true ->
   snd (checkOrtho_left psi count i) = [])
  /\ (fst (checkOrtho_left psi count i) = Ok true <->
      forall k, i <= k < i + Z.of_nat count ->
                fst (checkOrtho_at psi k true) = Ok true).
Proof.
  revert i. induction count as [|count IH]; intros i.
  - cbn. split; [reflexivity|]. split; [intros _ k Hk; lia | reflexivity].
  - cbn [checkOrtho_left]. unfold mbind, W_bind, w_bind.
    destruct (checkOrtho_at psi i true) as [[[|] | msg |] out] eqn:E.
    + destruct (checkOrtho_at_cases psi i true _ _ E)
        as [[_ ->] | [Hf _]]; [|discriminate Hf].
      cbn [negb]. destruct (IH (i + 1)) as [Hs Hiff].
      destruct (checkOrtho_left psi count (i + 1)) as [r out'] eqn:Er.
      cbn [fst snd] in *. split; [exact Hs|].
      rewrite Hiff. split.
      * intros H k Hk. destruct (Z.eq_dec k i) as [-> | Hne];
          [now rewrite E | apply H; lia].
      * intros H k Hk. apply H. lia.
    + cbn. split; [discriminate|]. split; [discriminate|].
      intros H. specialize (H i ltac:(lia)). rewrite E in H. discriminate H.
    + cbn. split; [discriminate|]. split; [discriminate|].
      intros H. specialize (H i ltac:(lia)). rewrite E in H. discriminate H.
    + cbn. split; [discriminate|]. split; [discriminate|].
      intros H. specialize (H i ltac:(lia)). rewrite E in H. discriminate H.
Qed.

Lemma checkOrtho_right_spec (psi : MPS) (count : nat) (i : Z) :
  (fst (checkOrtho_right psi count i) = Ok true ->
   snd (checkOrtho_right psi count i) = [])
  /\ (fst (checkOrtho_right psi count i) = Ok true <->
      forall k, i - Z.of_nat count < k <= i ->
                fst (checkOrtho_at psi k false) = Ok true).
Proof.
  revert i. induction count as [|count IH]; intros i.
  - cbn. split; [reflexivity|]. split; [intros _ k Hk; lia | reflexivity].
  - cbn [checkOrtho_right]. unfold mbind, W_bind, w_bind.
    destruct (checkOrtho_at psi i false) as [[[|] | msg |] out] eqn:E.
    + destruct (checkOrtho_at_cases psi i false _ _ E)
        as [[_ ->] | [Hf _]]; [|discriminate Hf].
      cbn [negb]. destruct (IH (i - 1)) as [Hs Hiff].
      destruct (checkOrtho_right psi count (i - 1)) as [r out'] eqn:Er.
      cbn [fst snd] in *. split; [exact Hs|].
      rewrite Hiff. split.
      * intros H k Hk. destruct (Z.eq_dec k i) as [-> | Hne];
          [now rewrite E | apply H; lia].
      * intros H k Hk. apply H. lia.
    + cbn. split; [discriminate|]. split; [discriminate|].
      intros H. specialize (H i ltac:(lia)). rewrite E in H. discriminate H.
    + cbn. split; [discriminate|]. split; [discriminate|].
      intros H. specialize (H i ltac:(lia)). rewrite E in H. discriminate H.
    + cbn. split; [discriminate|]. split; [discriminate|].
      intros H. specialize (H i ltac:(lia)). rewrite E in H. discriminate H.
Qed.

(** X12. The whole-state [checkOrtho] returns true exactly when the
    single-site check passes as left-orthogonal at every position
    1..leftLim and as right-orthogonal at every position rightLim..N; it
    then has printed nothing. With [leftLim < 1] and [rightLim > N] it
    returns true without looking at any tensor. *)
Theorem checkOrtho_iff_all_sites (psi : MPS) :
  (fst (checkOrtho psi) = Ok true <->
     (forall i, 1 <= i <= leftLim psi ->
                fst (checkOrtho_at psi i true) = Ok true) /\
     (forall i, rightLim psi <= i <= N psi ->
                fst (checkOrtho_at psi i false) = Ok true))
  /\ (fst (checkOrtho psi) = Ok true -> snd (checkOrtho psi) = [])
  /\ (leftLim psi < 1 -> rightLim psi > N psi -> checkOrtho psi = (Ok true, [])).
Proof.
  destruct (checkOrtho_left_spec psi (Z.to_nat (leftLim psi)) 1) as [HsL HL].
  destruct (checkOrtho_right_spec psi (Z.to_nat (N psi - rightLim psi + 1)) (N psi))
    as [HsR HR].
  assert (Hmain :
    fst (checkOrtho psi) = Ok true <->
    fst (checkOrtho_left psi (Z.to_nat (leftLim psi)) 1) = Ok true /\
    fst (checkOrtho_right psi (Z.to_nat (N psi - rightLim psi + 1)) (N psi)) = Ok true).
  { unfold checkOrtho, mbind, W_bind, w_bind, w_ret.
    destruct (checkOrtho_left psi _ 1) as [[[|] | msg |] outL]; cbn [negb fst];
      try (split; [discriminate | intros [H _]; discriminate H]).
    destruct (checkOrtho_right psi _ (N psi)) as [r outR]. cbn. tauto. }
  assert (Hsil : fst (checkOrtho psi) = Ok true -> snd (checkOrtho psi) = []).
  { intros H. destruct (proj1 Hmain H) as [H1 H2].
    specialize (HsL H1). specialize (HsR H2).
    unfold checkOrtho, mbind, W_bind, w_bind, w_ret.
    destruct (checkOrtho_left psi _ 1) as [rL outL]. cbn [fst snd] in *. subst.
    destruct (checkOrtho_right psi _ (N psi)) as [rR outR]. cbn [fst snd] in *.
    subst. reflexivity. }
  assert (Hiff :
    fst (checkOrtho psi) = Ok true <->
    (forall i, 1 <= i <= leftLim psi -> fst (checkOrtho_at psi i true) = Ok true) /\
    (forall i, rightLim psi <= i <= N psi -> fst (checkOrtho_at psi i false) = Ok true)).
  { rewrite Hmain, HL, HR. split; intros [H1 H2]; split; intros k Hk;
      first [apply H1 | apply H2]; lia. }
  split; [exact Hiff|]. split; [exact Hsil|].
  intros Hl Hr.
  assert (Ht : fst (checkOrtho psi) = Ok true).
  { apply Hiff. split; intros k Hk; lia. }
  specialize (Hsil Ht). destruct (checkOrtho psi) as [r out]. cbn in *. now subst.
Qed.

End MoreFacts.

(** ** Quantum-number constructors and accessors *)

Section QNAccessFacts.
Import QNAlgebra.

(** X13. The braced-list constructor of [QN] aborts, with the message of
    [QNVal], exactly when the list does not have two elements; with two
    elements it fills the first sector only and leaves the other three
    sectors default-constructed (inactive, value 0). *)
Theorem QN_of_list_two_elements (qv : list Z) :
  (length qv = 2%nat ->
   exists v0, QNVal_of_list qv = Ok v0 /\
              QN_of_list qv = Ok (mkQN v0 QNVal_default QNVal_default QNVal_default))
  /\ (length qv <> 2%nat ->
      QN_of_list qv = Fatal "initializer_list arg to QNVal must have two elements").
Proof.
  destruct qv as [|a [|b [|c qv]]]; cbn; split; intros H;
    try (exfalso; lia); try reflexivity; try congruence.
  eexists. split; reflexivity.
Qed.

(** X14. The 1-indexed accessors [mod(n)], [isFermionic(q,n)] and
    [isActive(q,n)] are defined exactly for [n] in 1..QNSize, where they
    agree with the sector predicates on sector [n-1]; outside this range
    the checked accessors do not return. [operator bool] is the activity of
    the first sector. *)
Theorem QN_accessors_in_range (q : QN) (n : Z) :
  (1 <= n <= QNSize ->
   exists s, val0 q (n - 1) = Ok s /\
             QN_mod q n = Ok (mod_ s) /\
             isFermionic_at q n = Ok (isFermionic s) /\
             isActive_at q n = Ok (isActive s))
  /\ (~ (1 <= n <= QNSize) ->
      QN_mod q n = OutOfRange /\ isFermionic_at q n = OutOfRange /\
      isActive_at q n = OutOfRange)
  /\ isActive_at q 1 = Ok (QN_bool q).
Proof.
  unfold QNSize, isFermionic_at, isActive_at, QN_mod, val0.
  split; [|split].
  - intros Hn.
    assert (Hc : n = 1 \/ n = 2 \/ n = 3 \/ n = 4) by lia.
    destruct Hc as [-> | [-> | [-> | ->]]]; eexists; repeat split; reflexivity.
  - intros Hn. unfold vec_at.
    destruct (n - 1 <? 0) eqn:E; [repeat split; reflexivity|].
    apply Z.ltb_ge in E.
    assert (Hlk : store q !! Z.to_nat (n - 1) = None).
    { apply lookup_ge_None. cbn. lia. }
    rewrite Hlk. repeat split; reflexivity.
  - reflexivity.
Qed.

End QNAccessFacts.

(** ** Further concrete runs *)

Section MoreRuns.
Import QNAlgebra MPSImpl MPSSpec MPSMore ScalarChain ScalarMore.
#[local] Existing Instance scalar_lib.
#[local] Existing Instance scalar_more.

Lemma svdBond_abort_untouched_psi4 :
  exists msg psi',
    svdBond (TL := scalar_lib) 3 1%float Fromleft tt [] psi4 =
      (Fatal msg, psi', [Out_b_l_orth_lim 3 (leftLim psi4)]) /\
    A_ psi' = A_ psi4 /\ N psi' = N psi4 /\
    leftLim psi' = leftLim psi4 /\ rightLim psi' = rightLim psi4.
Proof.
  apply (svdBond_abort_untouched (TL := scalar_lib) 3 1%float Fromleft tt [] psi4).
  cbn. lia.
Defined.

Lemma svdBond_window_open_psi4 :
  leftLim (TL := scalar_lib) psi4_left + 1 <= rightLim psi4_left - 1 /\
  (isOrtho (TL := scalar_lib) psi4_left = true <-> rightLim psi4 <= 2 + 2).
Proof.
  exact (svdBond_window_open (TL := scalar_lib) 2 1%float Fromleft tt [] psi4
           1%float psi4_left [] eq_refl).
Defined.

Lemma svdBond_sweep_psi4 :
  gauge_ok (TL := scalar_lib) Fromleft (2 + 1) psi4_left /\
  (rightLim psi4 <= 2 + 2 -> gauge_ok (TL := scalar_lib) Fromright 2 psi4_left).
Proof.
  exact (svdBond_sweep (TL := scalar_lib) 2 1%float Fromleft tt [] psi4
           1%float psi4_left [] eq_refl).
Defined.

Lemma applyGate_moves_center_psi4 :
  exists psi',
    applyGate (TL := scalar_lib) 1%float [] psi4 = (Ok tt, psi', []) /\
    orthoCenter psi' = Ok (1 + 1 + 1) /\
    N psi' = N psi4 /\
    forall j, j <> 1 + 1 -> j <> 1 + 1 + 1 -> A psi' j = A psi4 j.
Proof.
  apply (applyGate_moves_center (TL := scalar_lib) 1%float [] psi4);
    [reflexivity | cbn; lia | cbn; lia].
Defined.

Lemma svdBond_exact_ignores_PH_psi4 :
  svdBond (TL := scalar_lib_weighted) 2 1%float Fromright 1%float
          [("UseSVD", BoolVal true)] psi4_weighted
  = svdBond (TL := scalar_lib_weighted) 2 1%float Fromright 2%float
            [("UseSVD", BoolVal true)] psi4_weighted.
Proof.
  apply (svdBond_exact_ignores_PH (TL := scalar_lib_weighted) 2 1%float Fromright
           1%float 2%float [("UseSVD", BoolVal true)] psi4_weighted).
  reflexivity.
Defined.

Lemma overlap_reads_sites_psi4 :
  overlapC (TL := scalar_lib) psi4_regauged psi4_regauged = overlapC psi4 psi4 /\
  overlap (TL := scalar_lib) psi4_regauged psi4_regauged = overlap psi4 psi4.
Proof.
  apply (overlap_reads_sites (TL := scalar_lib) psi4 psi4_regauged psi4 psi4_regauged);
    try reflexivity; try (cbn; lia);
    intros j Hj; cbn in Hj;
    (assert (Hc : j = 1 \/ j = 2 \/ j = 3 \/ j = 4) by lia);
    destruct Hc as [-> | [-> | [-> | ->]]]; reflexivity.
Defined.

Lemma sum_associative_fold_psi4 :
  sum (ML := direct_sum_mps) [psi4; psi4_left; psi4_right; psi4_wide] []
  = Ok (foldl (fun acc t => sum2 (ML := direct_sum_mps) acc t []) psi4
              [psi4_left; psi4_right; psi4_wide]).
Proof.
  apply (sum_associative_fold (ML := direct_sum_mps) [] psi4
           [psi4_left; psi4_right; psi4_wide]).
  intros x y z. unfold sum2. cbn. f_equal. symmetry. apply app_assoc.
Defined.

Lemma isComplex_psi4 :
  exists b,
    isComplex (TM := scalar_more) psi4 = Ok b /\
    (b = true <->
     exists k t, 1 <= k <= N psi4 /\ A psi4 k = Ok t /\
                 isComplexT (TensorLibMore := scalar_more) t = true).
Proof.
  apply (isComplex_iff_some_site (TM := scalar_more) psi4). cbn. lia.
Defined.

Lemma maxM_psi4 :
  exists m,
    maxM (TM := scalar_more) psi4 = Ok m /\ 0 <= m /\
    (N psi4 <= 1 -> m = 0) /\
    (forall b t t', 1 <= b < N psi4 ->
       A psi4 b = Ok t -> A psi4 (b + 1) = Ok t' ->
       Index_m (TensorLibMore := scalar_more) (commonIndex_any t t') <= m) /\
    (m = 0 \/
     exists b t t', 1 <= b < N psi4 /\
       A psi4 b = Ok t /\ A psi4 (b + 1) = Ok t' /\
       m = Index_m (TensorLibMore := scalar_more) (commonIndex_any t t')).
Proof.
  apply (maxM_bounds (TM := scalar_more) psi4). cbn. lia.
Defined.

Lemma normalize_psi4 :
  normalize (TM := scalar_more) psi4 = (Ok 1%float, psi4, []).
Proof.
  exact (proj2 (normalize_cases (TM := scalar_more) psi4) eq_refl 1%float eq_refl).
Defined.


Lemma checkOrtho_psi4_regauged :
  checkOrtho (TM := scalar_more) psi4_regauged = (Ok true, []).
Proof.
  apply (proj2 (proj2 (checkOrtho_iff_all_sites (TM := scalar_more) psi4_regauged)));
    cbn; lia.
Defined.

Lemma QN_of_list_spin1 :
  exists v0, QNVal_of_list [1; 1] = Ok v0 /\
             QN_of_list [1; 1] = Ok (mkQN v0 QNVal_default QNVal_default QNVal_default).
Proof.
  apply (proj1 (QN_of_list_two_elements [1; 1])). reflexivity.
Defined.

Lemma QN_accessors_electron :
  exists s, val0 q_electron (2 - 1) = Ok s /\
            QN_mod q_electron 2 = Ok (mod_ s) /\
            isFermionic_at q_electron 2 = Ok (isFermionic s) /\
            isActive_at q_electron 2 = Ok (isActive s).
Proof.
  apply (proj1 (QN_accessors_in_range q_electron 2)). unfold QNSize. lia.
Defined.

End MoreRuns.
